(** * Cellular life simulation: the transition engine of
      [cellular_simulation.py], embedded and verified.

    The embedding follows the Python source function by function.  Python
    integers are [Z], cells are strings, a matrix is a list of rows, and
    every operation that can raise in Python ([l[i]], [l[i] = x], [a % b])
    returns in the error monad [res].  The functions around the engine,
    which read lines, print, draw random numbers and write the report, are
    embedded as state passing over a [world], for any implementation of the
    Python builtins they call. *)

From stdpp Require Import base numbers list list_numbers strings.

Local Open Scope Z_scope.

(** ** Exceptions and the error monad *)

Inductive exn : Type :=
  | IndexError
  | ZeroDivisionError.

Inductive res (A : Type) : Type :=
  | Ok (a : A)
  | Raise (e : exn).

Arguments Ok {A} a.
Arguments Raise {A} e.

#[global] Instance res_ret : MRet res := λ A a, Ok a.
#[global] Instance res_bind : MBind res := λ A B f m,
  match m with
  | Ok a => f a
  | Raise e => Raise e
  end.

(** ** The Python operations the engine uses *)

(** [len(l)] *)
Definition len {A} (l : list A) : Z := Z.of_nat (length l).

(** [l[i]]: a negative index counts from the end; anything outside
    [-len(l) <= i < len(l)] raises [IndexError]. *)
Definition getitem {A} (l : list A) (i : Z) : res A :=
  let j := if i <? 0 then i + len l else i in
  if (j <? 0) || (len l <=? j) then Raise IndexError
  else match l !! Z.to_nat j with
       | Some x => Ok x
       | None => Raise IndexError
       end.

(** [l[i] = x], with the same index rule. *)
Definition setitem {A} (l : list A) (i : Z) (x : A) : res (list A) :=
  let j := if i <? 0 then i + len l else i in
  if (j <? 0) || (len l <=? j) then Raise IndexError
  else Ok (<[Z.to_nat j := x]> l).

(** [a % b]: the result has the sign of the divisor, as [Z.modulo] does;
    a zero divisor raises [ZeroDivisionError]. *)
Definition py_mod (a b : Z) : res Z :=
  if b =? 0 then Raise ZeroDivisionError else Ok (a `mod` b).

(** [range(lo, hi)] *)
Definition range (lo hi : Z) : list Z := seqZ lo (hi - lo).

(** [for x in xs: body], threading the variables the body assigns. *)
Fixpoint for_in {St : Type} (xs : list Z) (body : Z → St → res St) (s : St) : res St :=
  match xs with
  | [] => Ok s
  | x :: xs' => s' ← body x s; for_in xs' body s'
  end.

(** ** The program *)

Definition ALIVE : string := "O".
Definition DEAD : string := ".".

Abbreviation matrix_t := (list (list string)).

(** [count_alive_neighbors(matrix, row, col)] *)
Definition count_alive_neighbors (matrix : matrix_t) (row col : Z) : res Z :=
  let rows := len matrix in
  row0 ← getitem matrix 0;
  let cols := len row0 in
  let alive_count := 0 in
  for_in (range (row - 1) (row + 2)) (λ r alive_count,
    for_in (range (col - 1) (col + 2)) (λ c alive_count,
      if (r =? row) && (c =? col) then Ok alive_count
      else
        wrapped_r ← py_mod r rows;
        wrapped_c ← py_mod c cols;
        mrow ← getitem matrix wrapped_r;
        cell ← getitem mrow wrapped_c;
        if String.eqb cell ALIVE then Ok (alive_count + 1) else Ok alive_count)
      alive_count)
    alive_count.

(** [n in [2, 3, 4]] *)
Definition in_list (n : Z) (l : list Z) : bool := existsb (Z.eqb n) l.

(** [determine_cell_state(matrix, row, col)] *)
Definition determine_cell_state (matrix : matrix_t) (row col : Z) : res string :=
  alive_neighbors ← count_alive_neighbors matrix row col;
  mrow ← getitem matrix row;
  cell ← getitem mrow col;
  if String.eqb cell ALIVE then
    Ok (if in_list alive_neighbors [2; 3; 4] then ALIVE else DEAD)
  else
    Ok (if (0 <? alive_neighbors) && (alive_neighbors `mod` 2 =? 0)
        then ALIVE else DEAD).

(** [step_matrix(matrix)]: the fresh matrix is filled with [DEAD] and then
    overwritten cell by cell; every read goes to the argument [matrix]. *)
Definition step_matrix (matrix : matrix_t) : res matrix_t :=
  let rows := len matrix in
  row0 ← getitem matrix 0;
  let cols := len row0 in
  let new_matrix :=
    (λ _, (λ _, DEAD) <$> range 0 cols) <$> range 0 rows in
  for_in (range 0 rows) (λ row new_matrix,
    for_in (range 0 cols) (λ col new_matrix,
      state ← determine_cell_state matrix row col;
      new_row ← getitem new_matrix row;
      new_row' ← setitem new_row col state;
      setitem new_matrix row new_row')
      new_matrix)
    new_matrix.

(** The simulation loop of [main]: [matrix = step_matrix(matrix)], repeated
    [iterations] times. *)
Definition simulate (iterations : Z) (matrix : matrix_t) : res matrix_t :=
  for_in (range 0 iterations) (λ _ matrix, step_matrix matrix) matrix.

(** ** Grids *)

(** A grid of [rows] rows, each of [cols] cells. *)
Definition rectangular (rows cols : Z) (g : matrix_t) : Prop :=
  len g = rows ∧ Forall (λ r, len r = cols) g.

(** The input the engine is specified for. *)
Definition valid_grid (rows cols : Z) (g : matrix_t) : Prop :=
  1 ≤ rows ∧ 1 ≤ cols ∧ rectangular rows cols g.

(** Every cell is one of the two cell states. *)
Definition two_valued (g : matrix_t) : Prop :=
  Forall (Forall (λ c, c = ALIVE ∨ c = DEAD)) g.

(** The cell at a non-negative position, if there is one. *)
Definition cell_at (g : matrix_t) (i j : Z) : option string :=
  r ← g !! Z.to_nat i; r !! Z.to_nat j.

Definition alive_at (g : matrix_t) (i j : Z) : bool :=
  match cell_at g i j with
  | Some c => String.eqb c ALIVE
  | None => false
  end.

(** ** The functions the spec describes *)

(** Number of columns: the length of row 0. *)
Definition ncols (g : matrix_t) : Z :=
  match g with
  | [] => 0
  | r :: _ => len r
  end.

(** The offsets [(dr, dc)] of [{-1,0,1} x {-1,0,1}] other than [(0, 0)]. *)
Definition neighbor_offsets : list (Z * Z) :=
  filter (λ d, d ≠ (0, 0)) (list_prod [-1; 0; 1] [-1; 0; 1]).

(** The neighbour count as the spec words it: the number of offsets whose
    independently wrapped target cell is alive. *)
Definition count_live_neighbors_spec (g : matrix_t) (row col : Z) : Z :=
  len (filter
         (λ d, alive_at g ((row + d.1) `mod` len g) ((col + d.2) `mod` ncols g) = true)
         neighbor_offsets).

(** The rule of [determine_cell_state] on a cell and its neighbour count. *)
Definition next_state (cell : string) (n : Z) : string :=
  if String.eqb cell ALIVE then
    if in_list n [2; 3; 4] then ALIVE else DEAD
  else
    if (0 <? n) && (n `mod` 2 =? 0) then ALIVE else DEAD.

(** The next state of the cell at an in-bounds position, read off the
    input grid alone. *)
Definition next_cell (g : matrix_t) (i j : Z) : string :=
  next_state (default DEAD (cell_at g i j)) (count_live_neighbors_spec g i j).

(** The grid of all next cells. *)
Definition stepped (g : matrix_t) : matrix_t :=
  (λ i, (λ j, next_cell g i j) <$> range 0 (ncols g)) <$> range 0 (len g).

(** Reading every cell other than ['O'] as dead. *)
Definition normalize_cell (c : string) : string :=
  if String.eqb c ALIVE then ALIVE else DEAD.

Definition normalize (g : matrix_t) : matrix_t :=
  (λ r : list string, normalize_cell <$> r) <$> g.

(** 1 for an alive cell, 0 otherwise. *)
Definition indicator (g : matrix_t) (i j : Z) : Z :=
  if alive_at g i j then 1 else 0.

(** The grid of [rows] x [cols] dead cells. *)
Definition all_dead (rows cols : Z) : matrix_t :=
  replicate (Z.to_nat rows) (replicate (Z.to_nat cols) DEAD).

Definition grid3_corner : matrix_t :=
  [ ["O"; "."; "."]; ["."; "."; "."]; ["."; "."; "."] ]%string.

Definition grid3_top : matrix_t :=
  [ ["O"; "O"; "O"]; ["."; "."; "."]; ["."; "."; "."] ]%string.

Definition grid1_alive : matrix_t := [ ["O"%string] ].

(** A grid with a cell that is neither ['O'] nor ['.'], and its successor. *)
Definition grid2_other : matrix_t := [ ["x"; "O"]; ["O"; "O"] ]%string.

Definition grid2_other_next : matrix_t := [ ["O"; "."]; ["."; "O"] ]%string.

(** ** Grids outside the specified input *)

(** A grid with a row 0 and no row shorter than row 0: rows may be longer. *)
Definition wide (g : matrix_t) : Prop :=
  g ≠ [] ∧ Forall (λ r, ncols g ≤ len r) g.

(** Every row cut to the length of row 0. *)
Definition trim (g : matrix_t) : matrix_t :=
  take (Z.to_nat (ncols g)) <$> g.

(** ** The surrounding program *)

(** What the program takes from Python and its platform.  None of it is
    code of the repository, so the program is embedded over any
    implementation: [int(s)] ([None] for [ValueError]), [str(n)],
    [s.upper()], the generator of the [random] module ([random.seed] and
    [random.randint]) and the file system that receives the writes of the
    report ([Some e] when writing raised the exception printed as [e]). *)
Class Builtins : Type := {
  py_int : string → option Z;
  py_str : Z → string;
  str_upper : string → string;
  rng : Type;
  random_seed : Z → rng;
  random_randint : Z → Z → rng → Z * rng;
  fs : Type;
  fs_write : list string → fs → fs * option string;
}.

Definition MIN_DIMENSION : Z := 3.
Definition MAX_DIMENSION : Z := 20.
Definition MIN_TIME_STEP : Z := 1.
Definition MAX_TIME_STEP : Z := 99.

(** The newline and the double quote. *)
Definition nl : string := String (Ascii.ascii_of_nat 10) EmptyString.
Definition dquote : string := String (Ascii.ascii_of_nat 34) EmptyString.

(** [sep.join(l)] for the empty separator, and [s * n]. *)
Definition join (l : list string) : string := String.concat EmptyString l.

Definition str_mul (s : string) (n : Z) : string :=
  join (replicate (Z.to_nat n) s).

(** Exceptions that can leave the program: the end of the input, at
    [input()], and those of the engine. *)
Inductive io_exn : Type :=
  | EOFError
  | Engine (e : exn).

(** How a run of a part of the program ends; [OutOfFuel] is the model's
    own, for a [while True] loop cut short. *)
Inductive outcome (A : Type) : Type :=
  | Return (a : A)
  | Throw (e : io_exn)
  | OutOfFuel.

Arguments Return {A} a.
Arguments Throw {A} e.
Arguments OutOfFuel {A}.

Section program.
Context `{Builtins}.

(** The state the program works on: the lines still to be read, the
    chunks written to the console so far, the generator of [random] and the
    file system. *)
Record world : Type := World {
  stdin : list string;
  stdout : list string;
  gen : rng;
  disk : fs;
}.

Definition io (A : Type) : Type := world → outcome A * world.

Definition io_ret {A} (a : A) : io A := λ w, (Return a, w).

Definition io_bind {A B} (m : io A) (k : A → io B) : io B := λ w,
  match m w with
  | (Return a, w') => k a w'
  | (Throw e, w') => (Throw e, w')
  | (OutOfFuel, w') => (OutOfFuel, w')
  end.

(** [print(s)] and [print()] *)
Definition print (s : string) : io unit := λ w,
  (Return tt, World (stdin w) (stdout w ++ [s +:+ nl]) (gen w) (disk w)).

(** [input(prompt)]: the prompt is written, then a line is read;
    [EOFError] when there is none. *)
Definition input (prompt : string) : io string := λ w,
  let out := stdout w ++ [prompt] in
  match stdin w with
  | [] => (Throw EOFError, World [] out (gen w) (disk w))
  | line :: rest => (Return line, World rest out (gen w) (disk w))
  end.

(** [random.seed(s)] and [random.randint(a, b)] *)
Definition seed_random (s : Z) : io unit := λ w,
  (Return tt, World (stdin w) (stdout w) (random_seed s) (disk w)).

Definition randint (a b : Z) : io Z := λ w,
  let '(x, g) := random_randint a b (gen w) in
  (Return x, World (stdin w) (stdout w) g (disk w)).

(** A call of the engine from the program. *)
Definition engine {A} (r : res A) : io A := λ w,
  match r with
  | Ok a => (Return a, w)
  | Raise e => (Throw (Engine e), w)
  end.

(** [while True: body], where the body says [Some a] for [return a] and
    [None] to go round again. *)
Fixpoint while_true {A} (fuel : nat) (body : io (option A)) : io A :=
  match fuel with
  | O => λ w, (OutOfFuel, w)
  | S fuel' =>
      io_bind body (λ r,
        match r with
        | Some a => io_ret a
        | None => while_true fuel' body
        end)
  end.

(** [for x in xs: body] for a body with effects. *)
Fixpoint io_for {A St} (xs : list A) (body : A → St → io St) (s : St) : io St :=
  match xs with
  | [] => io_ret s
  | x :: xs' => io_bind (body x s) (io_for xs' body)
  end.

(** [[f(x) for x in xs]] for an [f] with effects. *)
Fixpoint io_comprehension {A B} (xs : list A) (f : A → io B) : io (list B) :=
  match xs with
  | [] => io_ret []
  | x :: xs' =>
      io_bind (f x) (λ b,
      io_bind (io_comprehension xs' f) (λ bs,
      io_ret (b :: bs)))
  end.

(** [get_dimension(dimension_name)] *)
Definition get_dimension (fuel : nat) (dimension_name : string) : io Z :=
  while_true fuel
    (io_bind
       (input ("Enter the number of " +:+ dimension_name
               +:+ " for the simulation matrix (" +:+ py_str MIN_DIMENSION
               +:+ " - " +:+ py_str MAX_DIMENSION +:+ "): "))
       (λ value,
          match py_int value with
          | Some dimension =>
              if (MIN_DIMENSION <=? dimension) && (dimension <=? MAX_DIMENSION)
              then io_ret (Some dimension)
              else
                io_bind
                  (print ("Error: Number of " +:+ dimension_name
                          +:+ " must be between " +:+ py_str MIN_DIMENSION
                          +:+ " and " +:+ py_str MAX_DIMENSION +:+ "."))
                  (λ _, io_ret None)
          | None =>
              io_bind (print "Error: Please enter a valid integer.")
                (λ _, io_ret None)
          end)).

(** [get_seed_value()] *)
Definition get_seed_value (fuel : nat) : io Z :=
  while_true fuel
    (io_bind
       (input "Enter the seed value (integer) for matrix generation or press enter for a random seed: ")
       (λ seed_input,
          if String.eqb seed_input EmptyString then
            io_bind (randint 1 100000000) (λ seed,
            io_bind (print ("Using random seed: " +:+ py_str seed)) (λ _,
            io_ret (Some seed)))
          else
            match py_int seed_input with
            | Some seed => io_ret (Some seed)
            | None =>
                io_bind
                  (print "Error: Please enter a valid integer or press Enter for a random seed.")
                  (λ _, io_ret None)
            end)).

(** [get_iterations()] *)
Definition get_iterations (fuel : nat) : io Z :=
  while_true fuel
    (io_bind
       (input ("Enter the number of time steps to simulate ("
               +:+ py_str MIN_TIME_STEP +:+ " - " +:+ py_str MAX_TIME_STEP
               +:+ "): "))
       (λ value,
          match py_int value with
          | Some iterations =>
              if (MIN_TIME_STEP <=? iterations) && (iterations <=? MAX_TIME_STEP)
              then io_ret (Some iterations)
              else
                io_bind
                  (print ("Error: Number of time steps must be between "
                          +:+ py_str MIN_TIME_STEP +:+ " and "
                          +:+ py_str MAX_TIME_STEP +:+ "."))
                  (λ _, io_ret None)
          | None =>
              io_bind (print "Error: Please enter a valid integer.")
                (λ _, io_ret None)
          end)).

(** [generate_matrix(rows, cols, seed)] *)
Definition generate_matrix (rows cols seed : Z) : io matrix_t :=
  io_bind (seed_random seed) (λ _,
  io_comprehension (range 0 rows) (λ _,
    io_comprehension (range 0 cols) (λ _,
      io_bind (randint 0 1) (λ r,
      io_ret (if r =? 1 then ALIVE else DEAD))))).

(** [display_matrix(matrix)] *)
Definition display_matrix (matrix : matrix_t) : io unit :=
  io_for matrix (λ row _, print (join row)) tt.

(** The writes of [write_final_time_step] to the opened file, in order. *)
Definition final_time_step_writes (matrix : matrix_t) (iterations : Z) : list string :=
  let time_step_text := if iterations =? 1 then "time step" else "time steps" in
  [ "Cellular Life Simulation Results"; nl; str_mul "-" 50; nl;
    "You ran " +:+ py_str iterations +:+ " " +:+ time_step_text +:+ ".";
    nl +:+ nl; "Final matrix:"; nl ]
  ++ ((λ row, join row +:+ nl) <$> matrix).

(** [write_final_time_step(matrix, iterations)]: [True] when the file was
    written, [False], after a message, when writing raised. *)
Definition write_final_time_step (matrix : matrix_t) (iterations : Z) : io bool := λ w,
  match fs_write (final_time_step_writes matrix iterations) (disk w) with
  | (d, None) => (Return true, World (stdin w) (stdout w) (gen w) d)
  | (d, Some e) =>
      io_bind (print ("Error writing to file: " +:+ e)) (λ _, io_ret false)
        (World (stdin w) (stdout w) (gen w) d)
  end.

(** [prompt_to_continue()] *)
Definition prompt_to_continue (fuel : nat) : io bool :=
  while_true fuel
    (io_bind (input "Run another simulation (Y/N)?: ") (λ line,
       let again := str_upper line in
       if String.eqb again "Y" then io_ret (Some true)
       else if String.eqb again "N" then io_ret (Some false)
       else
         io_bind (print "Not a valid answer. Please enter Y or N.")
           (λ _, io_ret None))).

(** The body of the [for] loop of [main]. *)
Definition main_step (i : Z) (matrix : matrix_t) : io matrix_t :=
  io_bind (engine (step_matrix matrix)) (λ matrix,
  io_bind (print EmptyString) (λ _,
  io_bind (print ("Matrix at Time Step " +:+ py_str (i + 2) +:+ ":")) (λ _,
  io_bind (display_matrix matrix) (λ _,
  io_ret matrix)))).

(** One round of the [while True] loop of [main]: [Some tt] for [break]. *)
Definition main_round (fuel : nat) : io (option unit) :=
  io_bind (print EmptyString) (λ _,
  io_bind (get_dimension fuel "rows") (λ rows,
  io_bind (get_dimension fuel "columns") (λ cols,
  io_bind (get_seed_value fuel) (λ seed,
  io_bind (get_iterations fuel) (λ iterations,
  io_bind (generate_matrix rows cols seed) (λ matrix,
  io_bind (print EmptyString) (λ _,
  io_bind (print "Initial Matrix (Time Step 1):") (λ _,
  io_bind (display_matrix matrix) (λ _,
  io_bind (io_for (range 0 iterations) main_step matrix) (λ matrix,
  io_bind (write_final_time_step matrix iterations) (λ _,
  io_bind (print EmptyString) (λ _,
  io_bind (print ("Simulation complete! The final matrix has been saved to "
                  +:+ dquote +:+ "final_time_step.txt" +:+ dquote +:+ ".")) (λ _,
  io_bind (prompt_to_continue fuel) (λ again,
  if negb again then
    io_bind
      (print "Thank you for using the Cellular Life Simulation program. Goodbye!")
      (λ _, io_ret (Some tt))
  else io_ret None)))))))))))))).

(** [main()] *)
Definition main (fuel : nat) : io unit :=
  io_bind (print "Cellular Life Simulation") (λ _,
  io_bind (print "-------------------------") (λ _,
  io_bind (print "This program simulates cellular life using matrices.") (λ _,
  io_bind (print ("The final matrix will be saved to " +:+ dquote
                  +:+ "final_time_step.txt" +:+ dquote
                  +:+ " in your current directory.")) (λ _,
  while_true fuel (main_round fuel))))).

(** What a part of the program is shown to do on every world with at most
    [n] lines of input left: it does not run out of fuel, it raises nothing
    but [EOFError], and when it returns, the value satisfies [P] and no line
    was put back; with [strict], at least one line was read. *)
Definition io_spec {A} (strict : bool) (n : nat) (P : A → Prop) (m : io A) : Prop :=
  ∀ w, (length (stdin w) ≤ n)%nat →
    match m w with
    | (Return a, w') =>
        P a ∧ (if strict then (length (stdin w') < length (stdin w))%nat
               else (length (stdin w') ≤ length (stdin w))%nat)
    | (Throw e, _) => e = EOFError
    | (OutOfFuel, _) => False
    end.

(** The lines [get_dimension] and [get_iterations] accept: those [int]
    reads as an integer between the bounds. *)
Definition bounded_int (lo hi : Z) (line : string) : option Z :=
  match py_int line with
  | Some v => if (lo <=? v) && (v <=? hi) then Some v else None
  | None => None
  end.

(** The answers [prompt_to_continue] accepts. *)
Definition yes_no (line : string) : option bool :=
  if String.eqb (str_upper line) "Y" then Some true
  else if String.eqb (str_upper line) "N" then Some false
  else None.

End program.

(** An instance to run the program on: decimal numerals of one digit, the
    identity for [upper] but for [y] and [n], a generator that counts, and a
    file system that keeps the last report and refuses an empty one. *)
Definition toy_builtins : Builtins := {|
  py_int := λ s,
    if String.eqb s "0" then Some 0 else if String.eqb s "1" then Some 1
    else if String.eqb s "2" then Some 2 else if String.eqb s "3" then Some 3
    else if String.eqb s "4" then Some 4 else if String.eqb s "5" then Some 5
    else None;
  py_str := λ n, "#";
  str_upper := λ s,
    if String.eqb s "y" then "Y" else if String.eqb s "n" then "N" else s;
  rng := Z;
  random_seed := λ s, s;
  random_randint := λ a b g, (a + g `mod` (b - a + 1), g + 1);
  fs := list string;
  fs_write := λ ws d, match ws with [] => (d, Some "empty") | _ => (ws, None) end;
|}.

(** A world of that instance with the given lines of input. *)
Definition toy_world (lines : list string) : world (H := toy_builtins) :=
  World (H := toy_builtins) lines [] (0 : Z) ([] : list string).

(** Grids used to exercise the edges. *)
Definition grid_long_row : matrix_t := [ ["O"; "O"]; ["O"; "O"; "x"] ]%string.

Definition grid_short_row : matrix_t := [ ["O"; "O"]; ["O"] ]%string.

Definition grid_no_columns : matrix_t := [ []; ["O"] ]%string.

Definition grid2_alive : matrix_t := [ ["O"; "O"]; ["O"; "O"] ]%string.

(** Closed instances of [valid_grid] are settled by evaluation. *)
Ltac valid_grid_by_computation :=
  unfold valid_grid, rectangular;
  split_and!; [lia | lia | reflexivity | repeat constructor].

(** ** Python operations *)

Lemma len_nonneg {A} (l : list A) : 0 ≤ len l.
Proof. unfold len. lia. Qed.

Lemma len_filter_cons {A} (P : A → bool) (x : A) (l : list A) :
  len (filter (λ y, P y = true) (x :: l))
  = (if P x then 1 else 0) + len (filter (λ y, P y = true) l).
Proof.
  rewrite filter_cons. unfold len.
  destruct (P x); case_decide; try done; cbn [length]; lia.
Qed.

Lemma getitem_lookup {A} (l : list A) (i : Z) (x : A) :
  0 ≤ i → l !! Z.to_nat i = Some x → getitem l i = Ok x.
Proof.
  intros Hi Hx. unfold getitem.
  apply lookup_lt_Some in Hx as Hlt.
  assert ((i <? 0) = false) as Hneg by lia.
  assert ((len l <=? i) = false) as Hlen by (unfold len; lia).
  rewrite Hneg. cbv zeta. by rewrite Hneg, Hlen, Hx.
Qed.

Lemma getitem_in_bounds {A} (l : list A) (i : Z) :
  0 ≤ i < len l → ∃ x, l !! Z.to_nat i = Some x ∧ getitem l i = Ok x.
Proof.
  intros Hi. destruct (lookup_lt_is_Some_2 l (Z.to_nat i)) as [x Hx].
  { unfold len in Hi. lia. }
  exists x. split; [done|]. apply getitem_lookup; [lia|done].
Qed.

Lemma setitem_in_bounds {A} (l : list A) (i : Z) (x : A) :
  0 ≤ i < len l → setitem l i x = Ok (<[Z.to_nat i := x]> l).
Proof.
  intros Hi. unfold setitem.
  assert ((i <? 0) = false) as Hneg by lia.
  assert ((len l <=? i) = false) as Hlen by lia.
  rewrite Hneg. cbv zeta. by rewrite Hneg, Hlen.
Qed.

Lemma py_mod_pos (a b : Z) : 0 < b → py_mod a b = Ok (a `mod` b).
Proof.
  intros Hb. unfold py_mod. destruct (Z.eqb_spec b 0); [lia|done].
Qed.

Lemma range_three (a : Z) : range (a - 1) (a + 2) = [a - 1; a; a + 1].
Proof.
  unfold range. replace (a + 2 - (a - 1)) with 3 by lia.
  unfold seqZ. change (Z.to_nat 3) with 3%nat. cbn.
  repeat (f_equal; try lia).
Qed.

Lemma range_lookup (n : Z) (i : nat) (x : Z) :
  range 0 n !! i = Some x ↔ x = Z.of_nat i ∧ Z.of_nat i < n.
Proof.
  unfold range. rewrite lookup_seqZ. split; intros [-> ?]; split; lia.
Qed.

Lemma range_length (n : Z) : length (range 0 n) = Z.to_nat n.
Proof. unfold range. rewrite length_seqZ. f_equal. lia. Qed.

(** ** Loops *)

(** A loop whose body keeps an invariant indexed by the iteration number
    runs to completion and ends in the invariant. *)
Lemma for_in_invariant {St : Type} (I : nat → St → Prop) (xs : list Z)
    (body : Z → St → res St) (s : St) :
  I 0%nat s →
  (∀ i x t, xs !! i = Some x → I i t → ∃ t', body x t = Ok t' ∧ I (S i) t') →
  ∃ s', for_in xs body s = Ok s' ∧ I (length xs) s'.
Proof.
  revert I s. induction xs as [|x xs IH]; intros I s H0 Hstep.
  - exists s. by split.
  - destruct (Hstep 0%nat x s) as (t & Hb & Ht); [done|done|].
    destruct (IH (λ i, I (S i)) t) as (s' & Hrun & Hs'); [done| |].
    + intros i y u Hy Hu. by apply (Hstep (S i)).
    + exists s'. split; [|done]. cbn. rewrite Hb. exact Hrun.
Qed.

(** A property kept by every successful iteration holds of whatever the
    loop returns. *)
Lemma for_in_preserves {St : Type} (P : St → Prop) (xs : list Z)
    (body : Z → St → res St) (s s' : St) :
  P s →
  (∀ x t t', P t → body x t = Ok t' → P t') →
  for_in xs body s = Ok s' → P s'.
Proof.
  intros Hs Hstep. revert s Hs.
  induction xs as [|x xs IH]; intros s Hs Hrun; cbn in Hrun.
  - by inversion Hrun; subst.
  - destruct (body x s) as [t|e] eqn:Hb; [|done].
    apply (IH t); [by eapply Hstep|done].
Qed.

Lemma for_in_ext {St : Type} (xs : list Z) (body1 body2 : Z → St → res St) (s : St) :
  (∀ x t, body1 x t = body2 x t) →
  for_in xs body1 s = for_in xs body2 s.
Proof.
  intros Hb. revert s. induction xs as [|x xs IH]; intros s; [done|].
  cbn. rewrite Hb. destruct (body2 x s); [apply IH|done].
Qed.


Lemma bind_Ok {A B : Type} (a : A) (f : A → res B) : (Ok a ≫= f) = f a.
Proof. reflexivity. Qed.

(** ** Valid grids *)

Section valid.
Context (rows cols : Z) (g : matrix_t) (Hg : valid_grid rows cols g).

Lemma valid_len : len g = rows.
Proof. by destruct Hg as (_ & _ & ? & _). Qed.

Lemma valid_rows_pos : 0 < rows.
Proof. destruct Hg as (? & _). lia. Qed.

Lemma valid_cols_pos : 0 < cols.
Proof. destruct Hg as (_ & ? & _). lia. Qed.

Lemma valid_row (i : Z) :
  0 ≤ i < rows →
  ∃ r, g !! Z.to_nat i = Some r ∧ getitem g i = Ok r ∧ len r = cols.
Proof.
  intros Hi. destruct (getitem_in_bounds g i) as (r & Hr & Hget).
  { by rewrite valid_len. }
  exists r. split_and!; [done|done|].
  destruct Hg as (_ & _ & _ & Hall).
  rewrite Forall_lookup in Hall. by eapply Hall.
Qed.

Lemma valid_ncols : ncols g = cols.
Proof.
  destruct (valid_row 0) as (r & Hr & _ & Hlen).
  { pose proof valid_rows_pos. lia. }
  destruct g; [done|]. cbn in Hr. by inversion Hr; subst.
Qed.

Lemma valid_cell (i j : Z) :
  0 ≤ i < rows → 0 ≤ j < cols →
  ∃ r c, getitem g i = Ok r ∧ getitem r j = Ok c ∧ cell_at g i j = Some c.
Proof.
  intros Hi Hj. destruct (valid_row i Hi) as (r & Hr & Hget & Hlen).
  destruct (getitem_in_bounds r j) as (c & Hc & Hgetc); [by rewrite Hlen|].
  exists r, c. split_and!; [done|done|].
  unfold cell_at. by rewrite Hr.
Qed.

(** One neighbour lookup of [count_alive_neighbors]. *)
Lemma neighbor_lookup (r c n : Z) :
  (wrapped_r ← py_mod r rows;
   wrapped_c ← py_mod c cols;
   mrow ← getitem g wrapped_r;
   cell ← getitem mrow wrapped_c;
   if String.eqb cell ALIVE then Ok (n + 1) else Ok n)
  = Ok (n + indicator g (r `mod` rows) (c `mod` cols)).
Proof.
  pose proof valid_rows_pos. pose proof valid_cols_pos.
  rewrite !py_mod_pos by done. rewrite !bind_Ok.
  destruct (valid_cell (r `mod` rows) (c `mod` cols)) as (mrow & cell & Hr & Hc & Hcell).
  { by apply Z.mod_pos_bound. }
  { by apply Z.mod_pos_bound. }
  rewrite Hr, bind_Ok, Hc, bind_Ok.
  unfold indicator, alive_at. rewrite Hcell.
  destruct (String.eqb cell ALIVE); [done|]. by rewrite Z.add_0_r.
Qed.

(** The loops of [count_alive_neighbors], unrolled. *)
Lemma count_alive_neighbors_sum (row col : Z) :
  count_alive_neighbors g row col =
  Ok (indicator g ((row - 1) `mod` rows) ((col - 1) `mod` cols)
      + indicator g ((row - 1) `mod` rows) (col `mod` cols)
      + indicator g ((row - 1) `mod` rows) ((col + 1) `mod` cols)
      + indicator g (row `mod` rows) ((col - 1) `mod` cols)
      + indicator g (row `mod` rows) ((col + 1) `mod` cols)
      + indicator g ((row + 1) `mod` rows) ((col - 1) `mod` cols)
      + indicator g ((row + 1) `mod` rows) (col `mod` cols)
      + indicator g ((row + 1) `mod` rows) ((col + 1) `mod` cols)).
Proof.
  unfold count_alive_neighbors.
  destruct (valid_row 0) as (row0 & _ & Hrow0 & Hlen0).
  { pose proof valid_rows_pos. lia. }
  rewrite Hrow0, bind_Ok, Hlen0, valid_len, !range_three.
  assert ((row - 1 =? row) = false) as Hr1 by lia.
  assert ((row + 1 =? row) = false) as Hr2 by lia.
  assert ((col - 1 =? col) = false) as Hc1 by lia.
  assert ((col + 1 =? col) = false) as Hc2 by lia.
  cbn [for_in].
  rewrite !Z.eqb_refl, Hr1, Hr2, Hc1, Hc2.
  cbn [andb].
  repeat (rewrite neighbor_lookup; rewrite ?bind_Ok).
  reflexivity.
Qed.

(** The code's count is the spec's count. *)
Lemma count_alive_neighbors_spec_eq (row col : Z) :
  count_alive_neighbors g row col = Ok (count_live_neighbors_spec g row col).
Proof.
  rewrite count_alive_neighbors_sum. f_equal.
  unfold count_live_neighbors_spec. rewrite valid_len, valid_ncols.
  change neighbor_offsets with
    [(-1, -1); (-1, 0); (-1, 1); (0, -1); (0, 1); (1, -1); (1, 0); (1, 1)].
  rewrite !len_filter_cons. cbn [fst snd filter list_filter len length].
  rewrite !Z.add_0_r. change (row + -1) with (row - 1).
  change (col + -1) with (col - 1). cbn. unfold indicator. lia.
Qed.

Lemma determine_cell_state_valid (row col : Z) :
  0 ≤ row < rows → 0 ≤ col < cols →
  determine_cell_state g row col = Ok (next_cell g row col).
Proof.
  intros Hrow Hcol. unfold determine_cell_state.
  rewrite count_alive_neighbors_spec_eq, bind_Ok.
  destruct (valid_cell row col Hrow Hcol) as (mrow & cell & -> & Hc & Hcell).
  rewrite bind_Ok, Hc, bind_Ok.
  unfold next_cell, next_state. rewrite Hcell. cbn [default from_option id].
  by destruct (String.eqb cell ALIVE).
Qed.

(** The inner loop of [step_matrix] on row [ri]: it rewrites that row of
    the fresh matrix, cell by cell, and leaves the other rows alone. *)
Lemma step_matrix_row (ri : nat) (nm : matrix_t) :
  Z.of_nat ri < rows →
  length nm = Z.to_nat rows →
  (∃ nr, nm !! ri = Some nr ∧ length nr = Z.to_nat cols) →
  ∃ nm',
    for_in (range 0 cols) (λ col new_matrix,
      state ← determine_cell_state g (Z.of_nat ri) col;
      new_row ← getitem new_matrix (Z.of_nat ri);
      new_row' ← setitem new_row col state;
      setitem new_matrix (Z.of_nat ri) new_row') nm = Ok nm'
    ∧ length nm' = Z.to_nat rows
    ∧ (∀ r, r ≠ ri → nm' !! r = nm !! r)
    ∧ ∃ nr, nm' !! ri = Some nr ∧ length nr = Z.to_nat cols
        ∧ ∀ c, (c < Z.to_nat cols)%nat →
               nr !! c = Some (next_cell g (Z.of_nat ri) (Z.of_nat c)).
Proof.
  intros Hri Hlen Hrow.
  pose (I := λ (j : nat) (t : matrix_t),
    length t = Z.to_nat rows
    ∧ (∀ r, r ≠ ri → t !! r = nm !! r)
    ∧ ∃ nr, t !! ri = Some nr ∧ length nr = Z.to_nat cols
        ∧ ∀ c, (c < j)%nat →
               nr !! c = Some (next_cell g (Z.of_nat ri) (Z.of_nat c))).
  match goal with
  | |- ∃ _, for_in ?xs ?body ?t = _ ∧ _ =>
      destruct (for_in_invariant I xs body t) as (nm' & Hrun & Hend)
  end.
  - unfold I. split_and!; [done|done|].
    destruct Hrow as (nr & ? & ?). exists nr. split_and!; [done|done|lia].
  - intros j x t Hx (Ht & Hother & nr & Hnr & Hnrlen & Hdone).
    apply range_lookup in Hx as [-> Hj].
    rewrite determine_cell_state_valid by lia. rewrite bind_Ok.
    rewrite (getitem_lookup t _ nr) by (rewrite ?Nat2Z.id; done || lia).
    rewrite bind_Ok, setitem_in_bounds by (unfold len; lia).
    rewrite bind_Ok, setitem_in_bounds by (unfold len; lia).
    rewrite !Nat2Z.id. eexists. split; [done|].
    unfold I. split_and!.
    + by rewrite length_insert.
    + intros r Hr. rewrite list_lookup_insert_ne by done. by apply Hother.
    + eexists. split_and!.
      * apply list_lookup_insert_eq. lia.
      * by rewrite length_insert.
      * intros c Hc. destruct (decide (c = j)) as [->|Hne].
        -- apply list_lookup_insert_eq. lia.
        -- rewrite list_lookup_insert_ne by done. apply Hdone. lia.
  - exists nm'. split; [exact Hrun|].
    rewrite range_length in Hend. exact Hend.
Qed.

(** On a valid grid [step_matrix] returns the grid of next cells. *)
Lemma step_matrix_valid : step_matrix g = Ok (stepped g).
Proof.
  unfold step_matrix.
  destruct (valid_row 0) as (row0 & _ & Hrow0 & Hlen0).
  { pose proof valid_rows_pos. lia. }
  rewrite Hrow0, bind_Ok, Hlen0, valid_len.
  pose (I := λ (i : nat) (t : matrix_t),
    length t = Z.to_nat rows
    ∧ ∀ r, (r < Z.to_nat rows)%nat →
        ∃ nr, t !! r = Some nr ∧ length nr = Z.to_nat cols
          ∧ ((r < i)%nat → ∀ c, (c < Z.to_nat cols)%nat →
               nr !! c = Some (next_cell g (Z.of_nat r) (Z.of_nat c)))).
  match goal with
  | |- for_in ?xs ?body ?t = _ =>
      destruct (for_in_invariant I xs body t) as (nm' & Hrun & Hlen & Hend)
  end.
  - unfold I. split.
    + by rewrite length_fmap, range_length.
    + intros r Hr. eexists. split_and!.
      * rewrite list_lookup_fmap.
        destruct (range 0 rows !! r) eqn:Hlk; [done|].
        apply lookup_ge_None in Hlk. rewrite range_length in Hlk. lia.
      * by rewrite length_fmap, range_length.
      * lia.
  - intros i x t Hx (Ht & Hrows).
    apply range_lookup in Hx as [-> Hi].
    destruct (step_matrix_row i t) as (t' & Hrun & Ht' & Hother & nr & Hnr & Hnrlen & Hcells).
    { done. } { done. }
    { destruct (Hrows i) as (nr & ? & ? & _); [lia|]. by exists nr. }
    exists t'. split; [exact Hrun|]. unfold I. split; [done|].
    intros r Hr. destruct (decide (r = i)) as [->|Hne].
    + exists nr. split_and!; done.
    + destruct (Hrows r Hr) as (nr' & Hnr' & Hnr'len & Hdone).
      exists nr'. split_and!; [by rewrite Hother|done|].
      intros Hlt. apply Hdone. lia.
  - rewrite Hrun. f_equal. rewrite range_length in Hend.
    unfold stepped. rewrite valid_len, valid_ncols.
    apply (list_eq_same_length _ _ (Z.to_nat rows)).
    { by rewrite length_fmap, range_length. } { done. }
    intros i nr sr Hi Hnr Hsr.
    destruct (Hend i Hi) as (nr' & Hnr' & Hnr'len & Hcells).
    rewrite Hnr in Hnr'. inversion Hnr'; subst nr'.
    rewrite list_lookup_fmap in Hsr.
    destruct (range 0 rows !! i) as [x|] eqn:Hx; [|done].
    apply range_lookup in Hx as [-> _]. cbn in Hsr. inversion Hsr; subst sr.
    apply (list_eq_same_length _ _ (Z.to_nat cols)).
    { by rewrite length_fmap, range_length. } { done. }
    intros j c c' Hj Hc Hc'.
    rewrite Hcells in Hc by (done || lia). inversion Hc; subst c.
    rewrite list_lookup_fmap in Hc'.
    destruct (range 0 cols !! j) as [y|] eqn:Hy; [|done].
    apply range_lookup in Hy as [-> _]. cbn in Hc'. by inversion Hc'.
Qed.

(** The grid of next cells has the dimensions of the input. *)
Lemma stepped_valid : valid_grid rows cols (stepped g).
Proof.
  pose proof valid_rows_pos. pose proof valid_cols_pos.
  unfold valid_grid, rectangular, stepped.
  rewrite valid_len, valid_ncols. split_and!; [lia|lia| |].
  - unfold len. rewrite length_fmap, range_length. lia.
  - apply Forall_fmap, Forall_forall. intros i _. cbn.
    unfold len. rewrite length_fmap, range_length. lia.
Qed.

Lemma stepped_cell (row col : Z) :
  0 ≤ row < rows → 0 ≤ col < cols →
  cell_at (stepped g) row col = Some (next_cell g row col).
Proof.
  intros Hrow Hcol. unfold cell_at, stepped.
  rewrite valid_len, valid_ncols, list_lookup_fmap.
  assert (range 0 rows !! Z.to_nat row = Some row) as ->.
  { apply range_lookup. lia. }
  cbn. rewrite list_lookup_fmap.
  assert (range 0 cols !! Z.to_nat col = Some col) as ->.
  { apply range_lookup. lia. }
  done.
Qed.

Lemma indicator_bounds (i j : Z) : 0 ≤ indicator g i j ≤ 1.
Proof. unfold indicator. destruct (alive_at g i j); lia. Qed.

End valid.

(** ** Arbitrary input *)

Lemma normalize_cell_alive (c : string) :
  String.eqb (normalize_cell c) ALIVE = String.eqb c ALIVE.
Proof. unfold normalize_cell. by destruct (String.eqb c ALIVE) eqn:E. Qed.

Lemma len_fmap {A B} (f : A → B) (l : list A) : len (f <$> l) = len l.
Proof. unfold len. by rewrite length_fmap. Qed.

Lemma getitem_fmap {A B} (f : A → B) (l : list A) (i : Z) :
  getitem (f <$> l) i = x ← getitem l i; Ok (f x).
Proof.
  unfold getitem. rewrite len_fmap, list_lookup_fmap.
  destruct ((_ <? 0) || _); [done|].
  by destruct (l !! _).
Qed.

Lemma count_alive_neighbors_normalize (g : matrix_t) (row col : Z) :
  count_alive_neighbors (normalize g) row col = count_alive_neighbors g row col.
Proof.
  unfold count_alive_neighbors, normalize.
  rewrite getitem_fmap, len_fmap.
  destruct (getitem g 0) as [row0|e]; [|done].
  rewrite !bind_Ok, len_fmap.
  apply for_in_ext. intros r n. apply for_in_ext. intros c m.
  destruct ((r =? row) && (c =? col)); [done|].
  destruct (py_mod r (len g)) as [wr|e]; [|done].
  destruct (py_mod c (len row0)) as [wc|e]; [|done].
  rewrite !bind_Ok, getitem_fmap.
  destruct (getitem g wr) as [mrow|e]; [|done].
  rewrite !bind_Ok, getitem_fmap.
  destruct (getitem mrow wc) as [cell|e]; [|done].
  by rewrite !bind_Ok, normalize_cell_alive.
Qed.

Lemma determine_cell_state_normalize (g : matrix_t) (row col : Z) :
  determine_cell_state (normalize g) row col = determine_cell_state g row col.
Proof.
  unfold determine_cell_state. rewrite count_alive_neighbors_normalize.
  destruct (count_alive_neighbors g row col) as [n|e]; [|done].
  unfold normalize. rewrite !bind_Ok, getitem_fmap.
  destruct (getitem g row) as [mrow|e]; [|done].
  rewrite !bind_Ok, getitem_fmap.
  destruct (getitem mrow col) as [cell|e]; [|done].
  by rewrite !bind_Ok, normalize_cell_alive.
Qed.

Lemma step_matrix_normalize (g : matrix_t) :
  step_matrix (normalize g) = step_matrix g.
Proof.
  unfold step_matrix.
  replace (getitem (normalize g) 0)
    with (getitem g 0 ≫= λ r : list string, Ok (normalize_cell <$> r))
    by (symmetry; apply getitem_fmap).
  replace (len (normalize g)) with (len g) by (symmetry; apply len_fmap).
  destruct (getitem g 0) as [row0|e]; [|done].
  rewrite !bind_Ok, len_fmap.
  apply for_in_ext. intros r t. apply for_in_ext. intros c u.
  by rewrite determine_cell_state_normalize.
Qed.

Lemma determine_cell_state_two_valued (g : matrix_t) (row col : Z) (s : string) :
  determine_cell_state g row col = Ok s → s = ALIVE ∨ s = DEAD.
Proof.
  unfold determine_cell_state.
  destruct (count_alive_neighbors g row col) as [n|e]; [|done].
  rewrite bind_Ok. destruct (getitem g row) as [mrow|e]; [|done].
  rewrite bind_Ok. destruct (getitem mrow col) as [cell|e]; [|done].
  rewrite bind_Ok. destruct (String.eqb cell ALIVE).
  - destruct (in_list n [2; 3; 4]); inversion 1; auto.
  - destruct ((0 <? n) && (n `mod` 2 =? 0)); inversion 1; auto.
Qed.

Lemma getitem_elem_of {A} (l : list A) (i : Z) (x : A) :
  getitem l i = Ok x → x ∈ l.
Proof.
  unfold getitem. destruct ((_ <? 0) || _); [done|].
  destruct (l !! _) as [y|] eqn:Hy; [|done].
  inversion 1; subst. by eapply list_elem_of_lookup_2.
Qed.

Lemma setitem_Forall {A} (P : A → Prop) (l l' : list A) (i : Z) (x : A) :
  Forall P l → P x → setitem l i x = Ok l' → Forall P l'.
Proof.
  intros Hl Hx. unfold setitem. destruct ((_ <? 0) || _); [done|].
  inversion 1; subst. by apply Forall_insert.
Qed.

(** Whatever [step_matrix] returns holds only ['O'] and ['.']. *)
Lemma step_matrix_two_valued (g g' : matrix_t) :
  step_matrix g = Ok g' → two_valued g'.
Proof.
  unfold step_matrix. destruct (getitem g 0) as [row0|e]; [|done].
  rewrite bind_Ok. apply for_in_preserves.
  - apply Forall_fmap, Forall_forall. intros i _. cbn.
    apply Forall_fmap, Forall_forall. intros j _. cbn. by right.
  - intros row t t' Ht. apply for_in_preserves; [done|].
    intros col u u' Hu.
    destruct (determine_cell_state g row col) as [s|e] eqn:Hs; [|done].
    apply determine_cell_state_two_valued in Hs.
    rewrite bind_Ok. destruct (getitem u row) as [nr|e] eqn:Hnr; [|done].
    rewrite bind_Ok. destruct (setitem nr col s) as [nr'|e] eqn:Hnr'; [|done].
    rewrite bind_Ok. apply setitem_Forall; [done|].
    eapply setitem_Forall; [|exact Hs|exact Hnr'].
    apply getitem_elem_of in Hnr. unfold two_valued in Hu.
    rewrite Forall_forall in Hu. by apply Hu.
Qed.

Lemma simulate_two_valued (n : Z) (g g' : matrix_t) :
  two_valued g → simulate n g = Ok g' → two_valued g'.
Proof.
  intros Hg. unfold simulate. apply for_in_preserves; [done|].
  intros _ t t' _. apply step_matrix_two_valued.
Qed.

(** ** All-dead grids *)

Lemma all_dead_indicator (g : matrix_t) (i j : Z) :
  Forall (Forall (λ c, c = DEAD)) g → indicator g i j = 0.
Proof.
  intros Hg. unfold indicator, alive_at, cell_at.
  destruct (g !! Z.to_nat i) as [r|] eqn:Hr; [|done]. cbn.
  destruct (r !! Z.to_nat j) as [c|] eqn:Hc; [|done].
  rewrite Forall_lookup in Hg. specialize (Hg _ _ Hr).
  rewrite Forall_lookup in Hg. by rewrite (Hg _ _ Hc).
Qed.

Lemma next_state_zero (c : string) : next_state c 0 = DEAD.
Proof. unfold next_state. by destruct (String.eqb c ALIVE). Qed.

Lemma stepped_all_dead (rows cols : Z) (g : matrix_t) :
  valid_grid rows cols g → Forall (Forall (λ c, c = DEAD)) g → stepped g = g.
Proof.
  intros Hg Hdead.
  assert (∀ i j, next_cell g i j = DEAD) as Hnext.
  { intros i j. unfold next_cell.
    pose proof (count_alive_neighbors_spec_eq rows cols g Hg i j) as Hspec.
    rewrite (count_alive_neighbors_sum rows cols g Hg) in Hspec.
    rewrite !all_dead_indicator in Hspec by done.
    injection Hspec as Hzero. rewrite <- Hzero. apply next_state_zero. }
  destruct (stepped_valid rows cols g Hg) as (_ & _ & Hlen' & Hrows').
  destruct Hg as (Hrows & Hcols & Hlen & Hall).
  apply (list_eq_same_length _ _ (Z.to_nat rows)); [unfold len in *; lia..|].
  intros i sr r Hi Hsr Hr.
  rewrite Forall_lookup in Hrows'. specialize (Hrows' _ _ Hsr).
  rewrite Forall_lookup in Hall. specialize (Hall _ _ Hr).
  rewrite Forall_lookup in Hdead. specialize (Hdead _ _ Hr).
  apply (list_eq_same_length _ _ (Z.to_nat cols)); [unfold len in *; lia..|].
  intros j c' c Hj Hc' Hc.
  rewrite Forall_lookup in Hdead. rewrite (Hdead _ _ Hc).
  unfold stepped in Hsr. rewrite list_lookup_fmap in Hsr.
  destruct (range 0 (len g) !! i) as [x|]; [|done].
  cbn in Hsr. inversion Hsr; subst sr.
  rewrite list_lookup_fmap in Hc'.
  destruct (range 0 (ncols g) !! j) as [y|]; [|done].
  cbn in Hc'. inversion Hc'. apply Hnext.
Qed.

(** ** The claims *)

(** C1.  On a rectangular grid with at least one row and one column, the
    cell of [step_matrix g] at an in-bounds position is determined by the
    input grid [g] alone: an alive cell stays alive exactly when its
    neighbour count is 2, 3 or 4; a dead cell becomes alive exactly when its
    neighbour count is positive and even; in every other case the new cell
    is dead. *)
Theorem step_matrix_rule (rows cols : Z) (g : matrix_t) (row col : Z) :
  valid_grid rows cols g → 0 ≤ row < rows → 0 ≤ col < cols →
  ∃ g' n cell cell',
    step_matrix g = Ok g'
    ∧ count_alive_neighbors g row col = Ok n
    ∧ cell_at g row col = Some cell
    ∧ cell_at g' row col = Some cell'
    ∧ (cell = ALIVE → (cell' = ALIVE ↔ n = 2 ∨ n = 3 ∨ n = 4))
    ∧ (cell = DEAD → (cell' = ALIVE ↔ 0 < n ∧ Z.even n = true))
    ∧ (cell' = ALIVE ∨ cell' = DEAD).
Proof.
  intros Hg Hrow Hcol.
  destruct (valid_cell rows cols g Hg row col Hrow Hcol) as (mrow & cell & _ & _ & Hcell).
  exists (stepped g), (count_live_neighbors_spec g row col), cell, (next_cell g row col).
  split_and!.
  - by eapply step_matrix_valid.
  - by eapply count_alive_neighbors_spec_eq.
  - done.
  - by eapply stepped_cell.
  - intros ->. unfold next_cell, next_state. rewrite Hcell. cbn.
    set (n := count_live_neighbors_spec g row col).
    destruct (Z.eqb_spec n 2), (Z.eqb_spec n 3), (Z.eqb_spec n 4); cbn;
      split; (done || lia || auto).
  - intros ->. unfold next_cell, next_state. rewrite Hcell. cbn.
    set (n := count_live_neighbors_spec g row col).
    rewrite Zmod_even.
    destruct (Z.ltb_spec 0 n), (Z.even n); cbn; split; (done || lia).
  - unfold next_cell, next_state.
    destruct (String.eqb _ ALIVE); [destruct (in_list _ _)|destruct (_ && _)]; auto.
Qed.

Lemma step_matrix_rule_witness :
  ∃ g' n cell cell',
    step_matrix grid3_top = Ok g'
    ∧ count_alive_neighbors grid3_top 0 1 = Ok n
    ∧ cell_at grid3_top 0 1 = Some cell
    ∧ cell_at g' 0 1 = Some cell'
    ∧ (cell = ALIVE → (cell' = ALIVE ↔ n = 2 ∨ n = 3 ∨ n = 4))
    ∧ (cell = DEAD → (cell' = ALIVE ↔ 0 < n ∧ Z.even n = true))
    ∧ (cell' = ALIVE ∨ cell' = DEAD).
Proof.
  apply (step_matrix_rule 3 3 grid3_top 0 1); [valid_grid_by_computation | lia | lia].
Defined.

(** C2.  On a rectangular grid with at least one row and one column and at
    an in-bounds position, [count_alive_neighbors] returns the number of
    offsets [(dr, dc)] of [{-1,0,1} x {-1,0,1}], [(0, 0)] excluded, whose
    target cell [g[(row+dr) mod rows][(col+dc) mod cols]] is alive.  The two
    coordinates are wrapped independently by the code's [%], which lands in
    [[0, rows)] and [[0, cols)] also for a negative operand: from row 0 the
    offset -1 reaches the last row, from column 0 the last column.  The
    embedded function takes the grid and the position and returns a count
    and nothing else: it has no state to change. *)
Theorem count_alive_neighbors_offsets (rows cols : Z) (g : matrix_t) (row col : Z) :
  valid_grid rows cols g → 0 ≤ row < rows → 0 ≤ col < cols →
  count_alive_neighbors g row col
  = Ok (len (filter
              (λ d, alive_at g ((row + d.1) `mod` rows) ((col + d.2) `mod` cols) = true)
              (filter (λ d, d ≠ (0, 0)) (list_prod [-1; 0; 1] [-1; 0; 1]))))
  ∧ (∀ d, d ∈ neighbor_offsets →
       py_mod (row + d.1) rows = Ok ((row + d.1) `mod` rows)
       ∧ 0 ≤ (row + d.1) `mod` rows < rows
       ∧ py_mod (col + d.2) cols = Ok ((col + d.2) `mod` cols)
       ∧ 0 ≤ (col + d.2) `mod` cols < cols)
  ∧ (row = 0 → py_mod (row + -1) rows = Ok (rows - 1))
  ∧ (col = 0 → py_mod (col + -1) cols = Ok (cols - 1)).
Proof.
  intros Hg Hrow Hcol.
  pose proof (valid_rows_pos rows cols g Hg) as Hrows.
  pose proof (valid_cols_pos rows cols g Hg) as Hcols.
  split_and!.
  - rewrite (count_alive_neighbors_spec_eq rows cols g Hg).
    unfold count_live_neighbors_spec.
    by rewrite (valid_len rows cols g Hg), (valid_ncols rows cols g Hg).
  - intros d _. rewrite !py_mod_pos by done.
    split_and!; try done; by apply Z.mod_pos_bound.
  - intros ->. rewrite py_mod_pos by done. f_equal.
    replace (0 + -1) with (rows - 1 + -1 * rows) by lia.
    rewrite Z_mod_plus_full. apply Z.mod_small. lia.
  - intros ->. rewrite py_mod_pos by done. f_equal.
    replace (0 + -1) with (cols - 1 + -1 * cols) by lia.
    rewrite Z_mod_plus_full. apply Z.mod_small. lia.
Qed.

Lemma count_alive_neighbors_offsets_witness :
  count_alive_neighbors grid3_corner 0 0
  = Ok (len (filter
              (λ d, alive_at grid3_corner ((0 + d.1) `mod` 3) ((0 + d.2) `mod` 3) = true)
              (filter (λ d, d ≠ (0, 0)) (list_prod [-1; 0; 1] [-1; 0; 1]))))
  ∧ (∀ d, d ∈ neighbor_offsets →
       py_mod (0 + d.1) 3 = Ok ((0 + d.1) `mod` 3)
       ∧ 0 ≤ (0 + d.1) `mod` 3 < 3
       ∧ py_mod (0 + d.2) 3 = Ok ((0 + d.2) `mod` 3)
       ∧ 0 ≤ (0 + d.2) `mod` 3 < 3)
  ∧ (0 = 0 → py_mod (0 + -1) 3 = Ok (3 - 1))
  ∧ (0 = 0 → py_mod (0 + -1) 3 = Ok (3 - 1)).
Proof.
  apply (count_alive_neighbors_offsets 3 3 grid3_corner 0 0);
    [valid_grid_by_computation | lia | lia].
Defined.

(** C3.  On a rectangular grid with at least one row and one column,
    [step_matrix] returns a grid with the same number of rows and the same
    number of columns, every row of the same length: the result is again a
    valid rectangular grid of the input's dimensions. *)
Theorem step_matrix_dimensions (rows cols : Z) (g : matrix_t) :
  valid_grid rows cols g →
  ∃ g', step_matrix g = Ok g'
    ∧ len g' = len g
    ∧ Forall (λ r, len r = ncols g) g'
    ∧ valid_grid rows cols g'.
Proof.
  intros Hg. exists (stepped g).
  pose proof (stepped_valid rows cols g Hg) as Hs.
  split_and!; [by eapply step_matrix_valid| | |done].
  - rewrite (valid_len rows cols g Hg). by destruct Hs as (_ & _ & ? & _).
  - rewrite (valid_ncols rows cols g Hg). by destruct Hs as (_ & _ & _ & ?).
Qed.

Lemma step_matrix_dimensions_witness :
  ∃ g', step_matrix grid3_corner = Ok g'
    ∧ len g' = len grid3_corner
    ∧ Forall (λ r, len r = ncols grid3_corner) g'
    ∧ valid_grid 3 3 g'.
Proof.
  apply (step_matrix_dimensions 3 3 grid3_corner); valid_grid_by_computation.
Defined.

(** C4.  With a single row no case is special: the wrap-around alone sends
    the offsets (-1, 0) and (1, 0) back to the cell's own row, so the cell
    itself is counted twice, next to three counts each of its left and its
    right neighbour.  The same holds with a single column, rows and columns
    exchanged.  On the 1 x 1 grid all eight offsets come back to the one
    cell, and an alive cell has 8 alive neighbours. *)
Theorem count_alive_neighbors_degenerate (rows cols : Z) (g : matrix_t) (row col : Z) :
  valid_grid rows cols g → 0 ≤ row < rows → 0 ≤ col < cols →
  (rows = 1 →
     (row - 1) `mod` rows = row ∧ (row + 1) `mod` rows = row
     ∧ count_alive_neighbors g row col
       = Ok (2 * indicator g row col
             + 3 * indicator g row ((col - 1) `mod` cols)
             + 3 * indicator g row ((col + 1) `mod` cols)))
  ∧ (cols = 1 →
     (col - 1) `mod` cols = col ∧ (col + 1) `mod` cols = col
     ∧ count_alive_neighbors g row col
       = Ok (2 * indicator g row col
             + 3 * indicator g ((row - 1) `mod` rows) col
             + 3 * indicator g ((row + 1) `mod` rows) col))
  ∧ (rows = 1 → cols = 1 → alive_at g row col = true →
     count_alive_neighbors g row col = Ok 8).
Proof.
  intros Hg Hrow Hcol.
  rewrite (count_alive_neighbors_sum rows cols g Hg).
  split_and!.
  - intros ->. assert (row = 0) as -> by lia.
    rewrite !Z.mod_1_r, (Z.mod_small col cols) by lia.
    split_and!; [done|done|]. f_equal. lia.
  - intros ->. assert (col = 0) as -> by lia.
    rewrite !Z.mod_1_r, (Z.mod_small row rows) by lia.
    split_and!; [done|done|]. f_equal. lia.
  - intros -> -> Halive.
    assert (row = 0) as -> by lia. assert (col = 0) as -> by lia.
    rewrite !Z.mod_1_r. unfold indicator. by rewrite Halive.
Qed.

Lemma count_alive_neighbors_degenerate_witness :
  count_alive_neighbors grid1_alive 0 0 = Ok 8.
Proof.
  apply (count_alive_neighbors_degenerate 1 1 grid1_alive 0 0);
    [valid_grid_by_computation | lia | lia | reflexivity | reflexivity | reflexivity].
Defined.

(** C5.  In the 3 x 3 grid whose only alive cell is (0, 0), the cell (2, 2)
    has exactly one alive neighbour: its offset (1, 1) wraps to (0, 0). *)
Theorem count_alive_neighbors_corner :
  count_alive_neighbors grid3_corner 2 2 = Ok 1
  ∧ py_mod (2 + 1) (len grid3_corner) = Ok 0
  ∧ py_mod (2 + 1) (ncols grid3_corner) = Ok 0
  ∧ cell_at grid3_corner 0 0 = Some ALIVE.
Proof. split_and!; reflexivity. Qed.

(** C6.  The 3 x 3 grid with row 0 alive and rows 1 and 2 dead is a fixed
    point of [step_matrix]: every cell of row 0 has 2 alive neighbours and
    survives, every cell of rows 1 and 2 has 3 and stays dead. *)
Theorem step_matrix_top_row_fixed :
  step_matrix grid3_top = Ok grid3_top
  ∧ (λ col, count_alive_neighbors grid3_top 0 col) <$> range 0 3 = [Ok 2; Ok 2; Ok 2]
  ∧ (λ col, count_alive_neighbors grid3_top 1 col) <$> range 0 3 = [Ok 3; Ok 3; Ok 3]
  ∧ (λ col, count_alive_neighbors grid3_top 2 col) <$> range 0 3 = [Ok 3; Ok 3; Ok 3].
Proof. split_and!; reflexivity. Qed.

(** C7.  A rectangular grid with at least one row and one column whose cells
    are all dead is a fixed point of [step_matrix]: every neighbour count is
    0, so no cell is born. *)
Theorem step_matrix_all_dead (rows cols : Z) (g : matrix_t) :
  valid_grid rows cols g → Forall (Forall (λ c, c = DEAD)) g →
  step_matrix g = Ok g
  ∧ ∀ row col, 0 ≤ row < rows → 0 ≤ col < cols →
      count_alive_neighbors g row col = Ok 0.
Proof.
  intros Hg Hdead. split.
  - rewrite (step_matrix_valid rows cols g Hg). f_equal.
    by eapply stepped_all_dead.
  - intros row col _ _. rewrite (count_alive_neighbors_sum rows cols g Hg).
    by rewrite !all_dead_indicator.
Qed.

Lemma step_matrix_all_dead_witness :
  step_matrix (all_dead 2 3) = Ok (all_dead 2 3)
  ∧ ∀ row col, 0 ≤ row < 2 → 0 ≤ col < 3 →
      count_alive_neighbors (all_dead 2 3) row col = Ok 0.
Proof.
  apply (step_matrix_all_dead 2 3 (all_dead 2 3));
    [valid_grid_by_computation | repeat constructor].
Defined.

(** C8.  On a rectangular grid with at least one row and one column and at
    an in-bounds position, [count_alive_neighbors] returns an integer
    between 0 and 8. *)
Theorem count_alive_neighbors_bounds (rows cols : Z) (g : matrix_t) (row col : Z) :
  valid_grid rows cols g → 0 ≤ row < rows → 0 ≤ col < cols →
  ∃ n, count_alive_neighbors g row col = Ok n ∧ 0 ≤ n ≤ 8.
Proof.
  intros Hg _ _. eexists. split; [by eapply count_alive_neighbors_spec_eq|].
  unfold count_live_neighbors_spec, len.
  match goal with |- context [filter ?P neighbor_offsets] =>
    pose proof (length_filter P neighbor_offsets) as Hle end.
  change (length neighbor_offsets) with 8%nat in Hle. lia.
Qed.

Lemma count_alive_neighbors_bounds_witness :
  ∃ n, count_alive_neighbors grid1_alive 0 0 = Ok n ∧ 0 ≤ n ≤ 8.
Proof.
  apply (count_alive_neighbors_bounds 1 1 grid1_alive 0 0);
    [valid_grid_by_computation | lia | lia].
Defined.

(** C9.  On a rectangular grid with at least one row and one column the
    engine raises nothing.  [step_matrix] returns a grid; row 0, read for
    the column count, exists; and at every in-bounds position
    [count_alive_neighbors] and [determine_cell_state] return a value, each
    neighbour of the two loops being read at a wrapped row index inside
    [[0, rows)] and a wrapped column index inside the length of that row. *)
Theorem engine_never_raises (rows cols : Z) (g : matrix_t) :
  valid_grid rows cols g →
  (∃ g', step_matrix g = Ok g')
  ∧ (∃ row0, getitem g 0 = Ok row0 ∧ 0 ≤ 0 < len g ∧ len row0 = cols)
  ∧ ∀ row col, 0 ≤ row < rows → 0 ≤ col < cols →
      (∃ n, count_alive_neighbors g row col = Ok n)
      ∧ (∃ s, determine_cell_state g row col = Ok s)
      ∧ ∀ r c, r ∈ range (row - 1) (row + 2) → c ∈ range (col - 1) (col + 2) →
          ∃ wrapped_r wrapped_c mrow cell,
            py_mod r (len g) = Ok wrapped_r
            ∧ py_mod c cols = Ok wrapped_c
            ∧ 0 ≤ wrapped_r < len g
            ∧ getitem g wrapped_r = Ok mrow
            ∧ 0 ≤ wrapped_c < len mrow
            ∧ getitem mrow wrapped_c = Ok cell.
Proof.
  intros Hg.
  pose proof (valid_rows_pos rows cols g Hg) as Hrows.
  pose proof (valid_cols_pos rows cols g Hg) as Hcols.
  pose proof (valid_len rows cols g Hg) as Hlen.
  split_and!.
  - exists (stepped g). by eapply step_matrix_valid.
  - destruct (valid_row rows cols g Hg 0) as (row0 & _ & Hrow0 & Hlen0); [lia|].
    exists row0. split_and!; [done|lia|lia|done].
  - intros row col Hrow Hcol. split_and!.
    + eexists. by eapply count_alive_neighbors_spec_eq.
    + eexists. by eapply determine_cell_state_valid.
    + intros r c _ _. rewrite Hlen.
      assert (0 ≤ r `mod` rows < rows) as Hr by (by apply Z.mod_pos_bound).
      assert (0 ≤ c `mod` cols < cols) as Hc by (by apply Z.mod_pos_bound).
      destruct (valid_row rows cols g Hg _ Hr) as (mrow & _ & Hmrow & Hmlen).
      destruct (getitem_in_bounds mrow (c `mod` cols)) as (cell & _ & Hcell).
      { by rewrite Hmlen. }
      exists (r `mod` rows), (c `mod` cols), mrow, cell.
      rewrite !py_mod_pos by done. rewrite Hmlen. split_and!; done || lia.
Qed.

Lemma engine_never_raises_witness :
  (∃ g', step_matrix grid3_top = Ok g')
  ∧ (∃ row0, getitem grid3_top 0 = Ok row0 ∧ 0 ≤ 0 < len grid3_top ∧ len row0 = 3)
  ∧ ∀ row col, 0 ≤ row < 3 → 0 ≤ col < 3 →
      (∃ n, count_alive_neighbors grid3_top row col = Ok n)
      ∧ (∃ s, determine_cell_state grid3_top row col = Ok s)
      ∧ ∀ r c, r ∈ range (row - 1) (row + 2) → c ∈ range (col - 1) (col + 2) →
          ∃ wrapped_r wrapped_c mrow cell,
            py_mod r (len grid3_top) = Ok wrapped_r
            ∧ py_mod c 3 = Ok wrapped_c
            ∧ 0 ≤ wrapped_r < len grid3_top
            ∧ getitem grid3_top wrapped_r = Ok mrow
            ∧ 0 ≤ wrapped_c < len mrow
            ∧ getitem mrow wrapped_c = Ok cell.
Proof.
  apply (engine_never_raises 3 3 grid3_top); valid_grid_by_computation.
Defined.

(** C10.  Whatever grid [step_matrix] is given, the grid it returns holds
    only ['O'] and ['.'], also when the input holds other strings:
    [determine_cell_state] returns [ALIVE] or [DEAD] and nothing else, and
    it, [count_alive_neighbors] and [step_matrix] give the same outcome on
    the input as on the input with every cell other than ['O'] replaced by
    ['.'].  Further steps keep the grid two-valued. *)
Theorem step_matrix_two_valued_invariant (g g' : matrix_t) :
  step_matrix g = Ok g' →
  two_valued g'
  ∧ step_matrix (normalize g) = Ok g'
  ∧ two_valued (normalize g)
  ∧ (∀ row col,
       count_alive_neighbors (normalize g) row col = count_alive_neighbors g row col)
  ∧ (∀ row col,
       determine_cell_state (normalize g) row col = determine_cell_state g row col)
  ∧ (∀ row col s, determine_cell_state g row col = Ok s → s = ALIVE ∨ s = DEAD)
  ∧ (∀ n g'', simulate n g' = Ok g'' → two_valued g'').
Proof.
  intros Hstep. apply step_matrix_two_valued in Hstep as Htwo.
  split_and!.
  - done.
  - by rewrite step_matrix_normalize.
  - apply Forall_fmap, Forall_forall. intros r _. cbn.
    apply Forall_fmap, Forall_forall. intros c _. cbn.
    unfold normalize_cell. destruct (String.eqb c ALIVE); auto.
  - apply count_alive_neighbors_normalize.
  - apply determine_cell_state_normalize.
  - apply determine_cell_state_two_valued.
  - intros n g''. by apply simulate_two_valued.
Qed.

Lemma step_matrix_two_valued_invariant_witness :
  two_valued grid2_other_next
  ∧ step_matrix (normalize grid2_other) = Ok grid2_other_next
  ∧ two_valued (normalize grid2_other)
  ∧ (∀ row col,
       count_alive_neighbors (normalize grid2_other) row col
       = count_alive_neighbors grid2_other row col)
  ∧ (∀ row col,
       determine_cell_state (normalize grid2_other) row col
       = determine_cell_state grid2_other row col)
  ∧ (∀ row col s,
       determine_cell_state grid2_other row col = Ok s → s = ALIVE ∨ s = DEAD)
  ∧ (∀ n g'', simulate n grid2_other_next = Ok g'' → two_valued g'').
Proof.
  apply (step_matrix_two_valued_invariant grid2_other grid2_other_next).
  reflexivity.
Defined.

(** ** Which exceptions the operations raise *)

Lemma getitem_Raise {A} (l : list A) (i : Z) (e : exn) :
  getitem l i = Raise e → e = IndexError.
Proof.
  unfold getitem. destruct ((_ <? 0) || _); [by inversion 1|].
  destruct (l !! _); by inversion 1.
Qed.

Lemma setitem_Raise {A} (l : list A) (i : Z) (x : A) (e : exn) :
  setitem l i x = Raise e → e = IndexError.
Proof. unfold setitem. destruct ((_ <? 0) || _); by inversion 1. Qed.

Lemma getitem_Ok_lookup {A} (l : list A) (i : Z) (x : A) :
  0 ≤ i → getitem l i = Ok x → l !! Z.to_nat i = Some x ∧ i < len l.
Proof.
  intros Hi. unfold getitem.
  assert ((i <? 0) = false) as Hneg by lia. rewrite Hneg. cbv zeta.
  rewrite Hneg. cbn. destruct (Z.leb_spec (len l) i); [done|].
  destruct (l !! Z.to_nat i); [|done]. by inversion 1.
Qed.

Lemma getitem_zero {A} (l : list A) (x : A) :
  getitem l 0 = Ok x ↔ l !! 0%nat = Some x.
Proof.
  split.
  - intros H. by apply getitem_Ok_lookup in H as [? _].
  - intros H. by apply (getitem_lookup l 0 x).
Qed.

Lemma getitem_take {A} (l : list A) (n : nat) (i : Z) :
  0 ≤ i < Z.of_nat n → (n ≤ length l)%nat →
  getitem (take n l) i = getitem l i.
Proof.
  intros Hi Hn. unfold getitem, len. rewrite length_take, Nat.min_l by done.
  assert ((i <? 0) = false) as Hneg by lia. rewrite Hneg. cbv zeta.
  rewrite Hneg.
  assert ((Z.of_nat n <=? i) = false) as -> by lia.
  assert ((Z.of_nat (length l) <=? i) = false) as -> by lia.
  cbn. by rewrite lookup_take_lt by lia.
Qed.

(** ** More on loops *)

Lemma for_in_ext_in {St : Type} (xs : list Z) (body1 body2 : Z → St → res St) (s : St) :
  (∀ x t, x ∈ xs → body1 x t = body2 x t) →
  for_in xs body1 s = for_in xs body2 s.
Proof.
  revert s. induction xs as [|x xs IH]; intros s Hb; [done|].
  cbn. rewrite Hb by apply list_elem_of_here.
  destruct (body2 x s); [|done]. cbn. apply IH.
  intros y t Hy. apply Hb. by apply list_elem_of_further.
Qed.

(** A loop that completes has completed each of its iterations. *)
Lemma for_in_Ok_elem {St : Type} (xs : list Z) (body : Z → St → res St)
    (s s' : St) (x : Z) :
  for_in xs body s = Ok s' → x ∈ xs → ∃ t t', body x t = Ok t'.
Proof.
  revert s. induction xs as [|y xs IH]; intros s Hrun Hx.
  - by apply elem_of_nil in Hx.
  - cbn in Hrun. destruct (body y s) as [t|e] eqn:Hb; [|done].
    apply elem_of_cons in Hx as [->|Hx]; [by exists s, t|].
    by apply (IH t).
Qed.

(** An exception leaving a loop was raised by one of its iterations. *)
Lemma for_in_Raise {St : Type} (xs : list Z) (body : Z → St → res St)
    (s : St) (e : exn) :
  for_in xs body s = Raise e → ∃ x t, x ∈ xs ∧ body x t = Raise e.
Proof.
  revert s. induction xs as [|y xs IH]; intros s Hrun; [done|].
  cbn in Hrun. destruct (body y s) as [t|e'] eqn:Hb.
  - destruct (IH t Hrun) as (x & u & Hx & Hu).
    exists x, u. split; [by apply list_elem_of_further|done].
  - inversion Hrun; subst. exists y, s. split; [apply list_elem_of_here|done].
Qed.

Lemma for_in_skip {St : Type} (xs : list Z) (s : St) :
  for_in xs (λ _ t, Ok t) s = Ok s.
Proof. induction xs as [|x xs IH]; [done|]. cbn. exact IH. Qed.

Lemma for_in_app {St : Type} (xs ys : list Z) (body : Z → St → res St) (s : St) :
  for_in (xs ++ ys) body s = for_in xs body s ≫= for_in ys body.
Proof.
  revert s. induction xs as [|x xs IH]; intros s; cbn.
  - by destruct (for_in ys body s).
  - destruct (body x s) as [t|e]; [|done]. cbn. apply IH.
Qed.

(** A body that ignores the loop variable runs as often as the list is
    long. *)
Lemma for_in_const_length {St : Type} (xs ys : list Z) (step : St → res St) (s : St) :
  length xs = length ys →
  for_in xs (λ _, step) s = for_in ys (λ _, step) s.
Proof.
  revert ys s. induction xs as [|x xs IH]; intros [|y ys] s Hlen; try done.
  cbn. destruct (step s) as [t|e]; [|done]. cbn. apply IH.
  by inversion Hlen.
Qed.

Lemma range_elem (lo hi x : Z) : x ∈ range lo hi ↔ lo ≤ x < hi.
Proof. unfold range. rewrite elem_of_seqZ. lia. Qed.

Lemma py_mod_nonzero (a b : Z) : b ≠ 0 → py_mod a b = Ok (a `mod` b).
Proof.
  intros Hb. unfold py_mod. destruct (Z.eqb_spec b 0); [lia|done].
Qed.

Lemma py_mod_Ok (a b w : Z) : py_mod a b = Ok w → b ≠ 0 ∧ w = a `mod` b.
Proof.
  unfold py_mod. destruct (Z.eqb_spec b 0); [done|]. by inversion 1.
Qed.

(** ** Rows longer than row 0 *)

Section wide_grids.
Context (g : matrix_t) (Hwide : wide g) (Hcols : 0 < ncols g).

Lemma wide_row0 : ∃ row0, getitem g 0 = Ok row0 ∧ len row0 = ncols g.
Proof.
  destruct Hwide as [Hne _]. destruct g as [|row0 g']; [done|].
  exists row0. split; [by apply getitem_zero|done].
Qed.

Lemma wide_row_length (r : list string) : r ∈ g → (Z.to_nat (ncols g) ≤ length r)%nat.
Proof.
  intros Hr. destruct Hwide as [_ Hall]. rewrite Forall_forall in Hall.
  specialize (Hall r Hr). unfold len in Hall. lia.
Qed.

Lemma trim_row0 : ∃ row0, getitem (trim g) 0 = Ok row0 ∧ len row0 = ncols g.
Proof.
  destruct wide_row0 as (row0 & Hrow0 & Hlen).
  exists (take (Z.to_nat (ncols g)) row0). split.
  - unfold trim. by rewrite getitem_fmap, Hrow0.
  - unfold len in *. rewrite length_take. lia.
Qed.

Lemma trim_len : len (trim g) = len g.
Proof. apply len_fmap. Qed.

Lemma trim_valid : valid_grid (len g) (ncols g) (trim g).
Proof.
  unfold valid_grid, rectangular. split_and!.
  - destruct Hwide as [Hne _]. destruct g; [done|].
    unfold len. rewrite length_cons. lia.
  - lia.
  - apply trim_len.
  - apply Forall_fmap, Forall_forall. intros r Hr. cbn.
    apply wide_row_length in Hr. unfold len. rewrite length_take. lia.
Qed.

Lemma trim_cell (i j : Z) :
  0 ≤ j < ncols g →
  (getitem (trim g) i ≫= λ mrow, getitem mrow j)
  = (getitem g i ≫= λ mrow, getitem mrow j).
Proof.
  intros Hj. unfold trim. rewrite getitem_fmap.
  destruct (getitem g i) as [mrow|e] eqn:Hrow; [|done].
  rewrite !bind_Ok. apply getitem_take; [lia|].
  apply wide_row_length. by eapply getitem_elem_of.
Qed.

Lemma count_alive_neighbors_trim (row col : Z) :
  count_alive_neighbors (trim g) row col = count_alive_neighbors g row col.
Proof.
  unfold count_alive_neighbors.
  destruct wide_row0 as (row0 & -> & Hlen).
  destruct trim_row0 as (row0' & -> & Hlen').
  rewrite !bind_Ok, Hlen, Hlen', trim_len.
  apply for_in_ext. intros r n. apply for_in_ext. intros c m.
  destruct ((r =? row) && (c =? col)); [done|].
  destruct (py_mod r (len g)) as [wr|e]; [|done].
  destruct (py_mod c (ncols g)) as [wc|e] eqn:Hwc; [|done].
  apply py_mod_Ok in Hwc as [_ ->]. rewrite !bind_Ok.
  unfold trim at 1. rewrite getitem_fmap.
  destruct (getitem g wr) as [mrow|e] eqn:Hrow; [|done].
  pose proof (Z.mod_pos_bound c (ncols g) Hcols).
  rewrite !bind_Ok, getitem_take; [done|lia|].
  apply wide_row_length. by eapply getitem_elem_of.
Qed.

Lemma determine_cell_state_trim (row col : Z) :
  0 ≤ col < ncols g →
  determine_cell_state (trim g) row col = determine_cell_state g row col.
Proof.
  intros Hcol. unfold determine_cell_state.
  rewrite count_alive_neighbors_trim.
  destruct (count_alive_neighbors g row col) as [n|e]; [|done].
  rewrite !bind_Ok. unfold trim. rewrite getitem_fmap.
  destruct (getitem g row) as [mrow|e] eqn:Hrow; [|done].
  rewrite !bind_Ok, getitem_take; [done|lia|].
  apply wide_row_length. by eapply getitem_elem_of.
Qed.

Lemma step_matrix_trim : step_matrix (trim g) = step_matrix g.
Proof.
  unfold step_matrix.
  destruct wide_row0 as (row0 & -> & Hlen).
  destruct trim_row0 as (row0' & -> & Hlen').
  rewrite !bind_Ok, Hlen, Hlen', trim_len.
  apply for_in_ext_in. intros row t _.
  apply for_in_ext_in. intros col u Hcol. apply range_elem in Hcol.
  by rewrite determine_cell_state_trim by lia.
Qed.

End wide_grids.

Lemma fmap_const_length {A B C} (c : C) (l1 : list A) (l2 : list B) :
  length l1 = length l2 → (λ _, c) <$> l1 = (λ _, c) <$> l2.
Proof.
  revert l2. induction l1 as [|x l1 IH]; intros [|y l2] Hlen; try done.
  cbn. f_equal. apply IH. by inversion Hlen.
Qed.

(** With no columns the inner loop of [step_matrix] never runs. *)
Lemma step_matrix_no_columns (g : matrix_t) :
  getitem g 0 = Ok [] → step_matrix g = Ok ((λ _, []) <$> g).
Proof.
  intros Hrow0. unfold step_matrix. rewrite Hrow0, bind_Ok.
  change (len (@nil string)) with 0. change (range 0 0) with (@nil Z).
  cbn [for_in fmap list_fmap]. rewrite for_in_skip. f_equal.
  apply (fmap_const_length (@nil string)).
  rewrite range_length. unfold len. lia.
Qed.

(** What [step_matrix] returns on a grid with no short row. *)
Lemma step_matrix_wide_stepped (g : matrix_t) :
  wide g → step_matrix g = Ok (stepped (trim g)).
Proof.
  intros Hwide. destruct (decide (ncols g = 0)) as [Hzero|Hpos].
  - destruct Hwide as [Hne _]. destruct g as [|row0 g']; [done|].
    cbn in Hzero. destruct row0 as [|c row0]; [|done].
    rewrite step_matrix_no_columns by (by apply getitem_zero).
    f_equal. unfold stepped.
    assert (ncols (trim ([] :: g')) = 0) as -> by reflexivity.
    change (range 0 0) with (@nil Z). symmetry.
    apply (fmap_const_length (@nil string)).
    rewrite range_length. unfold trim, len. rewrite length_fmap. lia.
  - assert (0 < ncols g) as Hcols.
    { destruct g as [|row0 g']; cbn in *; unfold len in *; lia. }
    rewrite <- (step_matrix_trim g Hwide Hcols).
    apply (step_matrix_valid (len g) (ncols g)).
    by apply trim_valid.
Qed.

Lemma getitem_zero_ncols (g : matrix_t) (row0 : list string) :
  getitem g 0 = Ok row0 → ncols g = len row0 ∧ 0 < len g.
Proof.
  intros H. apply getitem_zero in H. destruct g as [|r g']; [done|].
  cbn in H. inversion H; subst. split; [done|].
  unfold len. rewrite length_cons. lia.
Qed.

Lemma count_alive_neighbors_Raise (g : matrix_t) (row col : Z) (e : exn) :
  count_alive_neighbors g row col = Raise e →
  e = IndexError ∨ (e = ZeroDivisionError ∧ ncols g = 0).
Proof.
  unfold count_alive_neighbors.
  destruct (getitem g 0) as [row0|e0] eqn:Hrow0.
  2:{ inversion 1; subst. left. by eapply getitem_Raise. }
  apply getitem_zero_ncols in Hrow0 as [Hcols Hrows].
  rewrite bind_Ok. intros Hrun.
  apply for_in_Raise in Hrun as (r & n & _ & Hrun).
  apply for_in_Raise in Hrun as (c & m & _ & Hbody).
  destruct ((r =? row) && (c =? col)); [done|].
  rewrite (py_mod_nonzero r (len g)), bind_Ok in Hbody by lia.
  destruct (decide (len row0 = 0)) as [Hzero|Hnonzero].
  { rewrite Hzero in Hbody. inversion Hbody; subst. right. split; [done|lia]. }
  rewrite (py_mod_nonzero c (len row0)), bind_Ok in Hbody by done.
  destruct (getitem g _) as [mrow|e1] eqn:Hmrow.
  2:{ inversion Hbody; subst. left. by eapply getitem_Raise. }
  rewrite bind_Ok in Hbody.
  destruct (getitem mrow _) as [cell|e2] eqn:Hcell.
  2:{ inversion Hbody; subst. left. by eapply getitem_Raise. }
  rewrite bind_Ok in Hbody. by destruct (String.eqb cell ALIVE).
Qed.

Lemma determine_cell_state_Raise (g : matrix_t) (row col : Z) (e : exn) :
  determine_cell_state g row col = Raise e →
  e = IndexError ∨ (e = ZeroDivisionError ∧ ncols g = 0).
Proof.
  unfold determine_cell_state.
  destruct (count_alive_neighbors g row col) as [n|e0] eqn:Hcount.
  2:{ inversion 1; subst. by eapply count_alive_neighbors_Raise. }
  rewrite bind_Ok. destruct (getitem g row) as [mrow|e1] eqn:Hmrow.
  2:{ inversion 1; subst. left. by eapply getitem_Raise. }
  rewrite bind_Ok. destruct (getitem mrow col) as [cell|e2] eqn:Hcell.
  2:{ inversion 1; subst. left. by eapply getitem_Raise. }
  rewrite bind_Ok. by destruct (String.eqb cell ALIVE).
Qed.

(** [step_matrix] takes the remainder by the column count only inside a
    loop over the columns, so a zero column count is never a divisor. *)
Lemma step_matrix_Raise (g : matrix_t) (e : exn) :
  step_matrix g = Raise e → e = IndexError.
Proof.
  unfold step_matrix.
  destruct (getitem g 0) as [row0|e0] eqn:Hrow0.
  2:{ inversion 1; subst. by eapply getitem_Raise. }
  apply getitem_zero_ncols in Hrow0 as [Hcols Hrows].
  rewrite bind_Ok. intros Hrun.
  apply for_in_Raise in Hrun as (row & t & _ & Hrun).
  apply for_in_Raise in Hrun as (col & u & Hcol & Hbody).
  apply range_elem in Hcol.
  destruct (determine_cell_state g row col) as [s|e0] eqn:Hs.
  2:{ inversion Hbody; subst.
      apply determine_cell_state_Raise in Hs as [?|[_ ?]]; [done|lia]. }
  rewrite bind_Ok in Hbody. destruct (getitem u row) as [nr|e1] eqn:Hnr.
  2:{ inversion Hbody; subst. by eapply getitem_Raise. }
  rewrite bind_Ok in Hbody. destruct (setitem nr col s) as [nr'|e2] eqn:Hnr'.
  2:{ inversion Hbody; subst. by eapply setitem_Raise. }
  rewrite bind_Ok in Hbody. by eapply setitem_Raise.
Qed.

(** A step that returns has read every cell below row 0's columns. *)
Lemma step_matrix_Ok_wide (g g' : matrix_t) : step_matrix g = Ok g' → wide g.
Proof.
  unfold step_matrix.
  destruct (getitem g 0) as [row0|e0] eqn:Hrow0; [|done].
  apply getitem_zero_ncols in Hrow0 as [Hcols Hrows].
  rewrite bind_Ok. intros Hrun. split.
  { intros ->. unfold len in Hrows. cbn in Hrows. lia. }
  apply Forall_lookup. intros i r Hr.
  destruct (Z.le_gt_cases (ncols g) (len r)) as [|Hshort]; [done|exfalso].
  apply lookup_lt_Some in Hr as Hi.
  assert (Z.of_nat i ∈ range 0 (len g)) as Hin.
  { apply range_elem. unfold len. lia. }
  destruct (for_in_Ok_elem _ _ _ _ _ Hrun Hin) as (t & t' & Hrow).
  assert (len r ∈ range 0 (len row0)) as Hin'.
  { apply range_elem. unfold len in *. lia. }
  destruct (for_in_Ok_elem _ _ _ _ _ Hrow Hin') as (u & u' & Hbody).
  unfold determine_cell_state in Hbody.
  destruct (count_alive_neighbors g _ _) as [n|]; [|done].
  rewrite bind_Ok in Hbody.
  rewrite (getitem_lookup g (Z.of_nat i) r) in Hbody
    by (rewrite ?Nat2Z.id; done || lia).
  rewrite bind_Ok in Hbody.
  destruct (getitem r (len r)) as [cell|] eqn:Hcell; [|done].
  apply getitem_Ok_lookup in Hcell as [_ ?]; [lia|apply len_nonneg].
Qed.

(** ** Grids of one state *)

Lemma all_dead_valid (rows cols : Z) :
  1 ≤ rows → 1 ≤ cols → valid_grid rows cols (all_dead rows cols).
Proof.
  intros Hrows Hcols. unfold valid_grid, rectangular, all_dead, len.
  split_and!; [done|done| |].
  - rewrite length_replicate. lia.
  - apply Forall_replicate. rewrite length_replicate. lia.
Qed.

Lemma all_dead_dead (rows cols : Z) :
  Forall (Forall (λ c, c = DEAD)) (all_dead rows cols).
Proof. apply Forall_replicate. by apply Forall_replicate. Qed.

Lemma stepped_dead (rows cols : Z) (g : matrix_t) :
  valid_grid rows cols g →
  (∀ i j, 0 ≤ i < rows → 0 ≤ j < cols → next_cell g i j = DEAD) →
  stepped g = all_dead rows cols.
Proof.
  intros Hg Hnext. unfold stepped, all_dead.
  rewrite (valid_len rows cols g Hg), (valid_ncols rows cols g Hg).
  apply (list_eq_same_length _ _ (Z.to_nat rows)).
  { by rewrite length_replicate. }
  { by rewrite length_fmap, range_length. }
  intros i x y Hi Hx Hy. apply lookup_replicate in Hy as [-> _].
  rewrite list_lookup_fmap in Hx.
  destruct (range 0 rows !! i) as [z|] eqn:Hz; [|done].
  apply range_lookup in Hz as [-> Hlt]. cbn in Hx. inversion Hx; subst x.
  apply (list_eq_same_length _ _ (Z.to_nat cols)).
  { by rewrite length_replicate. }
  { by rewrite length_fmap, range_length. }
  intros j c c' Hj Hc Hc'. apply lookup_replicate in Hc' as [-> _].
  rewrite list_lookup_fmap in Hc.
  destruct (range 0 cols !! j) as [z|] eqn:Hz; [|done].
  apply range_lookup in Hz as [-> Hlt']. cbn in Hc. inversion Hc.
  apply Hnext; lia.
Qed.

Lemma all_alive_indicator (rows cols : Z) (g : matrix_t) (i j : Z) :
  valid_grid rows cols g → Forall (Forall (λ c, c = ALIVE)) g →
  0 ≤ i < rows → 0 ≤ j < cols → indicator g i j = 1.
Proof.
  intros Hg Halive Hi Hj.
  destruct (valid_cell rows cols g Hg i j Hi Hj) as (r & c & _ & _ & Hcell).
  unfold indicator, alive_at. rewrite Hcell.
  unfold cell_at in Hcell.
  destruct (g !! Z.to_nat i) as [r'|] eqn:Hr; [|done]. cbn in Hcell.
  rewrite Forall_lookup in Halive. specialize (Halive _ _ Hr).
  rewrite Forall_lookup in Halive. by rewrite (Halive _ _ Hcell).
Qed.

Lemma all_alive_count (rows cols : Z) (g : matrix_t) (row col : Z) :
  valid_grid rows cols g → Forall (Forall (λ c, c = ALIVE)) g →
  count_live_neighbors_spec g row col = 8.
Proof.
  intros Hg Halive.
  pose proof (count_alive_neighbors_spec_eq rows cols g Hg row col) as Hspec.
  rewrite (count_alive_neighbors_sum rows cols g Hg) in Hspec.
  pose proof (valid_rows_pos rows cols g Hg).
  pose proof (valid_cols_pos rows cols g Hg).
  rewrite !(all_alive_indicator rows cols g) in Hspec
    by (done || by apply Z.mod_pos_bound).
  by injection Hspec as <-.
Qed.

Lemma all_dead_step_fixed (rows cols : Z) :
  1 ≤ rows → 1 ≤ cols →
  step_matrix (all_dead rows cols) = Ok (all_dead rows cols).
Proof.
  intros Hrows Hcols.
  pose proof (all_dead_valid rows cols Hrows Hcols) as Hvalid.
  rewrite (step_matrix_valid rows cols _ Hvalid). f_equal.
  eapply stepped_all_dead; [done|apply all_dead_dead].
Qed.

Lemma count_alive_neighbors_congr (rows cols : Z) (g : matrix_t)
    (row col row' col' : Z) :
  valid_grid rows cols g →
  row `mod` rows = row' `mod` rows → col `mod` cols = col' `mod` cols →
  count_alive_neighbors g row col = count_alive_neighbors g row' col'.
Proof.
  intros Hg Hrow Hcol.
  assert (∀ a b n d, a `mod` n = b `mod` n → (a + d) `mod` n = (b + d) `mod` n)
    as Hadd.
  { intros a b n d Hab. by rewrite (Zplus_mod a), Hab, <- Zplus_mod. }
  pose proof (Hadd _ _ _ (-1) Hrow) as Hrow1.
  pose proof (Hadd _ _ _ 1 Hrow) as Hrow2.
  pose proof (Hadd _ _ _ (-1) Hcol) as Hcol1.
  pose proof (Hadd _ _ _ 1 Hcol) as Hcol2.
  change (?x + -1) with (x - 1) in Hrow1, Hcol1.
  rewrite !(count_alive_neighbors_sum rows cols g Hg).
  by rewrite Hrow, Hrow1, Hrow2, Hcol, Hcol1, Hcol2.
Qed.

(** ** The engine outside its specified input *)

(** X1.  [step_matrix] returns a grid exactly on the grids that have a row 0
    and no row shorter than row 0.  On every other grid, the empty one
    included, it raises [IndexError]; it never raises
    [ZeroDivisionError]. *)
Theorem step_matrix_outcome (g : matrix_t) :
  (wide g → ∃ g', step_matrix g = Ok g')
  ∧ (¬ wide g → step_matrix g = Raise IndexError)
  ∧ (∀ g', step_matrix g = Ok g' → wide g)
  ∧ (∀ e, step_matrix g = Raise e → e = IndexError).
Proof.
  split_and!.
  - intros Hwide. eexists. by apply step_matrix_wide_stepped.
  - intros Hnot. destruct (step_matrix g) as [g'|e] eqn:Hstep.
    + by apply step_matrix_Ok_wide in Hstep.
    + by apply step_matrix_Raise in Hstep as ->.
  - apply step_matrix_Ok_wide.
  - apply step_matrix_Raise.
Qed.

(** X2.  Cells beyond the length of row 0 are never read.  On a grid with
    at least one column in row 0 and no shorter row, [step_matrix] returns
    what it returns on the grid with every row cut to the length of row 0,
    and the result has the input's row count and row 0's column count. *)
Theorem step_matrix_ignores_long_rows (g : matrix_t) :
  wide g → 0 < ncols g →
  ∃ g', step_matrix g = Ok g'
    ∧ step_matrix (trim g) = Ok g'
    ∧ valid_grid (len g) (ncols g) g'.
Proof.
  intros Hwide Hcols. exists (stepped (trim g)). split_and!.
  - by apply step_matrix_wide_stepped.
  - rewrite (step_matrix_trim g Hwide Hcols).
    by apply step_matrix_wide_stepped.
  - apply stepped_valid. by apply trim_valid.
Qed.

Lemma step_matrix_ignores_long_rows_witness :
  ∃ g', step_matrix grid_long_row = Ok g'
    ∧ step_matrix (trim grid_long_row) = Ok g'
    ∧ valid_grid (len grid_long_row) (ncols grid_long_row) g'.
Proof.
  apply (step_matrix_ignores_long_rows grid_long_row).
  - split; [done|]. repeat constructor; vm_compute; discriminate.
  - reflexivity.
Defined.

(** X3.  On a grid whose row 0 is empty, [step_matrix] raises nothing and
    returns one empty row per input row, whatever the other rows hold,
    while [count_alive_neighbors] and [determine_cell_state] raise
    [ZeroDivisionError] at every position. *)
Theorem no_columns_behaviour (g : matrix_t) (row col : Z) :
  getitem g 0 = Ok [] →
  step_matrix g = Ok ((λ _, []) <$> g)
  ∧ count_alive_neighbors g row col = Raise ZeroDivisionError
  ∧ determine_cell_state g row col = Raise ZeroDivisionError.
Proof.
  intros Hrow0. split; [by apply step_matrix_no_columns|].
  assert (count_alive_neighbors g row col = Raise ZeroDivisionError) as Hcount.
  { unfold count_alive_neighbors. rewrite Hrow0, bind_Ok, !range_three.
    apply getitem_zero_ncols in Hrow0 as [_ Hrows].
    cbn [for_in]. assert ((row - 1 =? row) = false) as -> by lia.
    cbn [andb]. by rewrite (py_mod_nonzero (row - 1) (len g)) by lia. }
  split; [done|]. unfold determine_cell_state. by rewrite Hcount.
Qed.

Lemma no_columns_behaviour_witness :
  step_matrix grid_no_columns = Ok [ []; [] ]
  ∧ count_alive_neighbors grid_no_columns 1 0 = Raise ZeroDivisionError
  ∧ determine_cell_state grid_no_columns 1 0 = Raise ZeroDivisionError.
Proof. apply (no_columns_behaviour grid_no_columns 1 0). reflexivity. Defined.

(** X4.  On the empty matrix every function of the engine raises
    [IndexError], at every position; the simulation loop raises it as soon
    as it takes one step and returns the empty matrix when it takes none. *)
Theorem empty_matrix_raises (row col n : Z) :
  count_alive_neighbors [] row col = Raise IndexError
  ∧ determine_cell_state [] row col = Raise IndexError
  ∧ step_matrix [] = Raise IndexError
  ∧ (1 ≤ n → simulate n [] = Raise IndexError)
  ∧ (n ≤ 0 → simulate n [] = Ok []).
Proof.
  split_and!; try reflexivity.
  - intros Hn. unfold simulate, range, seqZ.
    destruct (Z.to_nat (n - 0)) as [|k] eqn:Hk; [lia|]. reflexivity.
  - intros Hn. unfold simulate, range, seqZ.
    by replace (Z.to_nat (n - 0)) with 0%nat by lia.
Qed.

(** X5.  On a rectangular grid with at least one row and one column,
    [count_alive_neighbors] takes any integer position, negative or past
    the edge, and returns a count between 0 and 8 that depends on the
    position only modulo the dimensions of the grid. *)
Theorem count_alive_neighbors_periodic (rows cols : Z) (g : matrix_t)
    (row col k m : Z) :
  valid_grid rows cols g →
  count_alive_neighbors g (row + k * rows) (col + m * cols)
  = count_alive_neighbors g row col
  ∧ count_alive_neighbors g row col
    = count_alive_neighbors g (row `mod` rows) (col `mod` cols)
  ∧ ∃ n, count_alive_neighbors g row col = Ok n ∧ 0 ≤ n ≤ 8.
Proof.
  intros Hg.
  pose proof (valid_rows_pos rows cols g Hg) as Hrows.
  pose proof (valid_cols_pos rows cols g Hg) as Hcols.
  split_and!.
  - apply (count_alive_neighbors_congr rows cols); [done| |];
      apply Z_mod_plus_full.
  - apply (count_alive_neighbors_congr rows cols); [done| |];
      by rewrite Zmod_mod.
  - eexists. split; [by eapply count_alive_neighbors_spec_eq|].
    unfold count_live_neighbors_spec, len.
    match goal with |- context [filter ?P neighbor_offsets] =>
      pose proof (length_filter P neighbor_offsets) as Hle end.
    change (length neighbor_offsets) with 8%nat in Hle. lia.
Qed.

Lemma count_alive_neighbors_periodic_witness :
  count_alive_neighbors grid3_corner (4 + 2 * 3) (-1 + -5 * 3)
  = count_alive_neighbors grid3_corner 4 (-1)
  ∧ count_alive_neighbors grid3_corner 4 (-1)
    = count_alive_neighbors grid3_corner (4 `mod` 3) (-1 `mod` 3)
  ∧ ∃ n, count_alive_neighbors grid3_corner 4 (-1) = Ok n ∧ 0 ≤ n ≤ 8.
Proof.
  apply (count_alive_neighbors_periodic 3 3 grid3_corner 4 (-1) 2 (-5)).
  valid_grid_by_computation.
Defined.

(** ** The simulation loop *)

(** X6.  From a rectangular grid with at least one row and one column the
    simulation loop raises nothing, whatever the number of iterations: it
    returns a grid of the same dimensions, two-valued once a step was
    taken, and the input itself when the count is zero or negative. *)
Theorem simulate_valid (rows cols : Z) (g : matrix_t) (n : Z) :
  valid_grid rows cols g →
  ∃ g', simulate n g = Ok g'
    ∧ valid_grid rows cols g'
    ∧ (1 ≤ n → two_valued g')
    ∧ (n ≤ 0 → g' = g).
Proof.
  intros Hg. unfold simulate.
  pose (I := λ (i : nat) (t : matrix_t),
    valid_grid rows cols t
    ∧ ((1 ≤ i)%nat → two_valued t) ∧ (i = 0%nat → t = g)).
  destruct (for_in_invariant I (range 0 n) (λ _ m, step_matrix m) g)
    as (g' & Hrun & Hvalid & Htwo & Hsame).
  - unfold I. split_and!; [done|lia|done].
  - intros i x t _ (Ht & _ & _). exists (stepped t).
    pose proof (step_matrix_valid rows cols t Ht) as Hstep.
    split; [done|]. unfold I. split_and!.
    + by apply stepped_valid.
    + intros _. by eapply step_matrix_two_valued.
    + lia.
  - rewrite range_length in Htwo, Hsame. exists g'.
    split_and!; [done|done| |]; intros Hn; [apply Htwo|apply Hsame]; lia.
Qed.

Lemma simulate_valid_witness :
  ∃ g', simulate 5 grid3_corner = Ok g'
    ∧ valid_grid 3 3 g'
    ∧ (1 ≤ 5 → two_valued g')
    ∧ (5 ≤ 0 → g' = grid3_corner).
Proof.
  apply (simulate_valid 3 3 grid3_corner 5). valid_grid_by_computation.
Defined.

(** X7.  Running the simulation loop for [a + b] iterations is running it
    for [a] iterations and then, unless that raised, for [b] more; this
    holds on every grid, also where a step raises. *)
Theorem simulate_add (a b : Z) (g : matrix_t) :
  0 ≤ a → 0 ≤ b →
  simulate (a + b) g = simulate a g ≫= simulate b.
Proof.
  intros Ha Hb. unfold simulate, range.
  replace (a + b - 0) with (a + b) by lia.
  rewrite seqZ_app by lia. rewrite for_in_app.
  replace (a - 0) with a by lia.
  destruct (for_in (seqZ 0 a) (λ _ m, step_matrix m) g) as [t|e]; [|done].
  rewrite !bind_Ok. apply for_in_const_length.
  rewrite !length_seqZ. f_equal. lia.
Qed.

Lemma simulate_add_witness :
  simulate (2 + 3) grid2_other = simulate 2 grid2_other ≫= simulate 3.
Proof. apply (simulate_add 2 3 grid2_other); lia. Defined.

(** X8.  A rectangular grid with at least one row and one column whose
    cells are all alive dies out in one step: every cell counts 8 alive
    neighbours, whatever the dimensions, so no cell survives, and every
    later step leaves the grid dead. *)
Theorem all_alive_dies (rows cols : Z) (g : matrix_t) (n : Z) :
  valid_grid rows cols g → Forall (Forall (λ c, c = ALIVE)) g → 1 ≤ n →
  (∀ row col, count_alive_neighbors g row col = Ok 8)
  ∧ step_matrix g = Ok (all_dead rows cols)
  ∧ simulate n g = Ok (all_dead rows cols).
Proof.
  intros Hg Halive Hn.
  pose proof (valid_rows_pos rows cols g Hg) as Hrows.
  pose proof (valid_cols_pos rows cols g Hg) as Hcols.
  assert (step_matrix g = Ok (all_dead rows cols)) as Hstep.
  { rewrite (step_matrix_valid rows cols g Hg). f_equal.
    apply stepped_dead; [done|]. intros i j Hi Hj.
    unfold next_cell. rewrite (all_alive_count rows cols) by done.
    pose proof (all_alive_indicator rows cols g i j Hg Halive Hi Hj) as Hind.
    unfold indicator, alive_at in Hind. unfold next_state.
    destruct (cell_at g i j) as [c|]; [|done]. cbn.
    by destruct (String.eqb c ALIVE). }
  split_and!.
  - intros row col. rewrite (count_alive_neighbors_spec_eq rows cols g Hg).
    by rewrite (all_alive_count rows cols).
  - done.
  - unfold simulate.
    pose (I := λ (i : nat) (t : matrix_t),
      (i = 0%nat → t = g) ∧ ((1 ≤ i)%nat → t = all_dead rows cols)).
    destruct (for_in_invariant I (range 0 n) (λ _ m, step_matrix m) g)
      as (g' & Hrun & _ & Hdead).
    + unfold I. split; [done|lia].
    + intros i x t _ [Hzero Hpos]. exists (all_dead rows cols).
      split; [|unfold I; split; [lia|done]].
      destruct i as [|i]; [by rewrite Hzero|].
      rewrite Hpos by lia.
      apply (all_dead_step_fixed rows cols); lia.
    + rewrite Hrun. f_equal. apply Hdead. rewrite range_length. lia.
Qed.

Lemma all_alive_dies_witness :
  (∀ row col, count_alive_neighbors grid2_alive row col = Ok 8)
  ∧ step_matrix grid2_alive = Ok (all_dead 2 2)
  ∧ simulate 3 grid2_alive = Ok (all_dead 2 2).
Proof.
  apply (all_alive_dies 2 2 grid2_alive 3);
    [valid_grid_by_computation | repeat constructor | lia].
Defined.

(** ** The torus has no first row *)

Section rotation.
Context (rows cols : Z) (g : matrix_t) (Hg : valid_grid rows cols g) (k : nat).

Lemma rotate_valid : valid_grid rows cols (rotate k g).
Proof.
  destruct Hg as (Hrows & Hcols & Hlen & Hall).
  unfold valid_grid, rectangular, len. rewrite length_rotate.
  split_and!; [done|done|done|]. unfold rotate.
  apply Forall_app. split; [by apply Forall_drop|by apply Forall_take].
Qed.

Lemma rotate_cell (i j : Z) :
  0 ≤ i < rows →
  cell_at (rotate k g) i j = cell_at g ((i + Z.of_nat k) `mod` rows) j.
Proof.
  intros Hi. pose proof (valid_len rows cols g Hg) as Hlen. unfold len in Hlen.
  unfold cell_at. rewrite lookup_rotate_r by lia.
  unfold rotate_nat_add. rewrite Z2Nat.id, Hlen by lia.
  by rewrite (Z.add_comm (Z.of_nat k)).
Qed.

Lemma rotate_indicator (a j : Z) :
  indicator (rotate k g) (a `mod` rows) j
  = indicator g ((a + Z.of_nat k) `mod` rows) j.
Proof.
  pose proof (valid_rows_pos rows cols g Hg) as Hrows.
  unfold indicator, alive_at.
  rewrite rotate_cell by (by apply Z.mod_pos_bound).
  by rewrite Zplus_mod_idemp_l.
Qed.

Lemma rotate_count (row col : Z) :
  count_alive_neighbors (rotate k g) row col
  = count_alive_neighbors g (row + Z.of_nat k) col.
Proof.
  rewrite (count_alive_neighbors_sum rows cols _ rotate_valid).
  rewrite (count_alive_neighbors_sum rows cols g Hg).
  rewrite !rotate_indicator.
  replace (row + Z.of_nat k - 1) with (row - 1 + Z.of_nat k) by lia.
  by replace (row + Z.of_nat k + 1) with (row + 1 + Z.of_nat k) by lia.
Qed.

Lemma rotate_next_cell (i j : Z) :
  0 ≤ i < rows →
  next_cell (rotate k g) i j = next_cell g ((i + Z.of_nat k) `mod` rows) j.
Proof.
  intros Hi. unfold next_cell. rewrite rotate_cell by done. f_equal.
  pose proof (count_alive_neighbors_spec_eq rows cols _ rotate_valid i j) as Hl.
  pose proof (count_alive_neighbors_spec_eq rows cols g Hg
                ((i + Z.of_nat k) `mod` rows) j) as Hr.
  rewrite rotate_count in Hl.
  rewrite (count_alive_neighbors_congr rows cols g _ _
             ((i + Z.of_nat k) `mod` rows) j Hg) in Hl;
    [congruence|by rewrite Zmod_mod|done].
Qed.

Lemma rotate_stepped : stepped (rotate k g) = rotate k (stepped g).
Proof.
  pose proof (valid_rows_pos rows cols g Hg) as Hrows.
  pose proof (valid_len rows cols g Hg) as Hlen.
  pose proof (stepped_valid rows cols g Hg) as (_ & _ & Hslen & _).
  pose proof (stepped_valid rows cols _ rotate_valid) as (_ & _ & Hrlen & _).
  unfold len in Hlen, Hslen, Hrlen.
  apply (list_eq_same_length _ _ (Z.to_nat rows)).
  { rewrite length_rotate. lia. } { lia. }
  intros i x y Hi Hx Hy.
  rewrite lookup_rotate_r in Hy by lia.
  unfold rotate_nat_add in Hy. rewrite Hslen in Hy.
  unfold stepped in Hx, Hy.
  rewrite (valid_len rows cols _ rotate_valid),
    (valid_ncols rows cols _ rotate_valid), list_lookup_fmap in Hx.
  rewrite (valid_len rows cols g Hg), (valid_ncols rows cols g Hg),
    list_lookup_fmap in Hy.
  assert (range 0 rows !! i = Some (Z.of_nat i)) as Hri.
  { apply range_lookup. lia. }
  pose proof (Z.mod_pos_bound (Z.of_nat k + Z.of_nat i) rows Hrows) as Hmod.
  assert (range 0 rows !! Z.to_nat ((Z.of_nat k + Z.of_nat i) `mod` rows)
          = Some ((Z.of_nat k + Z.of_nat i) `mod` rows)) as Hri'.
  { apply range_lookup. lia. }
  rewrite Hri in Hx. rewrite Hri' in Hy.
  cbn in Hx, Hy. inversion Hx; subst x. inversion Hy; subst y.
  apply list_fmap_ext. intros c j _.
  rewrite rotate_next_cell by lia. by rewrite (Z.add_comm (Z.of_nat i)).
Qed.

End rotation.

(** X9.  Stepping commutes with rotating the rows: on a rectangular grid
    with at least one row and one column, the step of the grid with its rows
    rotated cyclically by [k] is the step of the grid, rotated by [k].  The
    wrap-around makes no row the first. *)
Theorem step_matrix_rotate_rows (rows cols : Z) (g : matrix_t) (k : nat) :
  valid_grid rows cols g →
  ∃ g', step_matrix g = Ok g'
    ∧ step_matrix (rotate k g) = Ok (rotate k g').
Proof.
  intros Hg. exists (stepped g). split; [by eapply step_matrix_valid|].
  rewrite (step_matrix_valid rows cols (rotate k g)) by (by apply rotate_valid).
  f_equal. by eapply rotate_stepped.
Qed.

Lemma step_matrix_rotate_rows_witness :
  ∃ g', step_matrix grid3_corner = Ok g'
    ∧ step_matrix (rotate 2 grid3_corner) = Ok (rotate 2 g').
Proof.
  apply (step_matrix_rotate_rows 3 3 grid3_corner 2). valid_grid_by_computation.
Defined.

(** ** Nor a first column *)

Section column_rotation.
Context (rows cols : Z) (g : matrix_t) (Hg : valid_grid rows cols g) (k : nat).

Lemma rotate_columns_valid : valid_grid rows cols (rotate k <$> g).
Proof.
  destruct Hg as (Hrows & Hcols & Hlen & Hall).
  unfold valid_grid, rectangular. rewrite len_fmap.
  split_and!; [done|done|done|].
  apply Forall_fmap. eapply Forall_impl; [exact Hall|].
  intros r Hr. cbn. unfold len in *. by rewrite length_rotate.
Qed.

Lemma rotate_columns_cell (i j : Z) :
  0 ≤ j < cols →
  cell_at (rotate k <$> g) i j = cell_at g i ((j + Z.of_nat k) `mod` cols).
Proof.
  intros Hj. unfold cell_at. rewrite list_lookup_fmap.
  destruct (g !! Z.to_nat i) as [r|] eqn:Hr; [|done]. cbn.
  destruct Hg as (_ & _ & _ & Hall). rewrite Forall_lookup in Hall.
  specialize (Hall _ _ Hr). unfold len in Hall.
  rewrite lookup_rotate_r by lia.
  unfold rotate_nat_add. rewrite Z2Nat.id, Hall by lia.
  by rewrite (Z.add_comm (Z.of_nat k)).
Qed.

Lemma rotate_columns_indicator (i b : Z) :
  indicator (rotate k <$> g) i (b `mod` cols)
  = indicator g i ((b + Z.of_nat k) `mod` cols).
Proof.
  pose proof (valid_cols_pos rows cols g Hg) as Hcols.
  unfold indicator, alive_at.
  rewrite rotate_columns_cell by (by apply Z.mod_pos_bound).
  by rewrite Zplus_mod_idemp_l.
Qed.

Lemma rotate_columns_count (row col : Z) :
  count_alive_neighbors (rotate k <$> g) row col
  = count_alive_neighbors g row (col + Z.of_nat k).
Proof.
  rewrite (count_alive_neighbors_sum rows cols _ rotate_columns_valid).
  rewrite (count_alive_neighbors_sum rows cols g Hg).
  rewrite !rotate_columns_indicator.
  replace (col + Z.of_nat k - 1) with (col - 1 + Z.of_nat k) by lia.
  by replace (col + Z.of_nat k + 1) with (col + 1 + Z.of_nat k) by lia.
Qed.

Lemma rotate_columns_next_cell (i j : Z) :
  0 ≤ j < cols →
  next_cell (rotate k <$> g) i j = next_cell g i ((j + Z.of_nat k) `mod` cols).
Proof.
  intros Hj. unfold next_cell. rewrite rotate_columns_cell by done. f_equal.
  pose proof (count_alive_neighbors_spec_eq rows cols _ rotate_columns_valid i j)
    as Hl.
  pose proof (count_alive_neighbors_spec_eq rows cols g Hg i
                ((j + Z.of_nat k) `mod` cols)) as Hr.
  rewrite rotate_columns_count in Hl.
  rewrite (count_alive_neighbors_congr rows cols g _ _ i
             ((j + Z.of_nat k) `mod` cols) Hg) in Hl;
    [congruence|done|by rewrite Zmod_mod].
Qed.

Lemma rotate_columns_stepped :
  stepped (rotate k <$> g) = rotate k <$> stepped g.
Proof.
  pose proof (valid_cols_pos rows cols g Hg) as Hcols.
  unfold stepped.
  rewrite (valid_len rows cols _ rotate_columns_valid),
    (valid_ncols rows cols _ rotate_columns_valid),
    (valid_len rows cols g Hg), (valid_ncols rows cols g Hg).
  rewrite <- list_fmap_compose. apply list_fmap_ext. intros _ i _. cbn.
  apply (list_eq_same_length _ _ (Z.to_nat cols)).
  { by rewrite length_rotate, length_fmap, range_length. }
  { by rewrite length_fmap, range_length. }
  intros j x y Hj Hx Hy.
  rewrite lookup_rotate_r in Hy by (rewrite length_fmap, range_length; lia).
  unfold rotate_nat_add in Hy. rewrite length_fmap, range_length in Hy.
  rewrite list_lookup_fmap in Hx, Hy.
  assert (range 0 cols !! j = Some (Z.of_nat j)) as Hrj.
  { apply range_lookup. lia. }
  pose proof (Z.mod_pos_bound (Z.of_nat k + Z.of_nat j) cols Hcols) as Hmod.
  assert (range 0 cols !! Z.to_nat ((Z.of_nat k + Z.of_nat j) `mod` cols)
          = Some ((Z.of_nat k + Z.of_nat j) `mod` cols)) as Hrj'.
  { apply range_lookup. lia. }
  rewrite Hrj in Hx. rewrite Z2Nat.id, Hrj' in Hy by lia.
  cbn in Hx, Hy. inversion Hx; subst x. inversion Hy; subst y.
  rewrite rotate_columns_next_cell by lia.
  by rewrite (Z.add_comm (Z.of_nat j)).
Qed.

End column_rotation.

(** X20.  Stepping commutes with rotating the columns: on a rectangular
    grid with at least one row and one column, the step of the grid with
    every row rotated cyclically by [k] is the step of the grid with every
    row rotated by [k]. *)
Theorem step_matrix_rotate_columns (rows cols : Z) (g : matrix_t) (k : nat) :
  valid_grid rows cols g →
  ∃ g', step_matrix g = Ok g'
    ∧ step_matrix (rotate k <$> g) = Ok (rotate k <$> g').
Proof.
  intros Hg. exists (stepped g). split; [by eapply step_matrix_valid|].
  rewrite (step_matrix_valid rows cols (rotate k <$> g))
    by (by apply rotate_columns_valid).
  f_equal. by eapply rotate_columns_stepped.
Qed.

Lemma step_matrix_rotate_columns_witness :
  ∃ g', step_matrix grid3_corner = Ok g'
    ∧ step_matrix (rotate 1 <$> grid3_corner) = Ok (rotate 1 <$> g').
Proof.
  apply (step_matrix_rotate_columns 3 3 grid3_corner 1).
  valid_grid_by_computation.
Defined.

(** ** The program around the engine *)

Section program_facts.
Context `{Builtins}.

Lemma io_spec_ret {A} (n : nat) (P : A → Prop) (a : A) :
  P a → io_spec false n P (io_ret a).
Proof. intros Ha w _. cbn. by split. Qed.

Lemma io_spec_weaken {A} (s : bool) (n : nat) (P Q : A → Prop) (m : io A) :
  io_spec s n P m → (∀ a, P a → Q a) → io_spec false n Q m.
Proof.
  intros Hm HPQ w Hw. specialize (Hm w Hw).
  destruct (m w) as [[a| |] w']; [|done..].
  destruct Hm as [Ha Hlen]. split; [by apply HPQ|].
  destruct s; lia.
Qed.

Lemma io_spec_bind {A B} (s1 s2 : bool) (n : nat) (P : A → Prop) (Q : B → Prop)
    (m : io A) (k : A → io B) :
  io_spec s1 n P m → (∀ a, P a → io_spec s2 n Q (k a)) →
  io_spec (s1 || s2) n Q (io_bind m k).
Proof.
  intros Hm Hk w Hw. unfold io_bind. specialize (Hm w Hw).
  destruct (m w) as [[a| |] w']; [|done..].
  destruct Hm as [Ha Hlen].
  assert (length (stdin w') ≤ n)%nat as Hw' by (destruct s1; lia).
  specialize (Hk a Ha w' Hw').
  destruct (k a w') as [[b| |] w'']; [|done..].
  destruct Hk as [Hb Hlen']. split; [done|].
  destruct s1, s2; cbn; lia.
Qed.

Lemma io_spec_print (n : nat) (s : string) : io_spec false n (λ _, True) (print s).
Proof. intros w _. cbn. by split. Qed.

Lemma io_spec_input (n : nat) (prompt : string) :
  io_spec true n (λ _, True) (input prompt).
Proof.
  intros w _. unfold input. destruct (stdin w) as [|line rest]; [done|].
  cbn. split; [done|lia].
Qed.

Lemma io_spec_randint (n : nat) (a b : Z) : io_spec false n (λ _, True) (randint a b).
Proof.
  intros w _. unfold randint. destruct (random_randint a b (gen w)).
  cbn. by split.
Qed.

Lemma io_spec_seed_random (n : nat) (s : Z) :
  io_spec false n (λ _, True) (seed_random s).
Proof. intros w _. cbn. by split. Qed.

Lemma io_spec_engine {A} (n : nat) (P : A → Prop) (r : res A) (a : A) :
  r = Ok a → P a → io_spec false n P (engine r).
Proof. intros -> Ha w _. cbn. by split. Qed.

(** A [while True] loop whose body reads a line on every round ends, by a
    [return] or by [EOFError], before the fuel does when the fuel exceeds
    the number of lines. *)
Lemma io_spec_while_true {A} (n fuel : nat) (P : A → Prop) (body : io (option A)) :
  io_spec true n (λ r, ∀ a, r = Some a → P a) body →
  (n < fuel)%nat →
  io_spec true n P (while_true fuel body).
Proof.
  intros Hbody Hfuel w Hw.
  assert (length (stdin w) < fuel)%nat as Hlt by lia. clear Hfuel.
  revert w Hw Hlt. induction fuel as [|fuel IH]; intros w Hw Hlt; [lia|].
  cbn. unfold io_bind. specialize (Hbody w Hw) as Hb.
  destruct (body w) as [[[a|]| |] w']; [| |done..].
  - destruct Hb as [Ha Hlen]. cbn. split; [by apply Ha|done].
  - destruct Hb as [_ Hlen].
    assert (length (stdin w') ≤ n)%nat as Hw' by lia.
    assert (length (stdin w') < fuel)%nat as Hlt' by lia.
    specialize (IH w' Hw' Hlt').
    destruct (while_true fuel body w') as [[a| |] w'']; [|done..].
    destruct IH as [Ha Hlen']. split; [done|lia].
Qed.

Lemma io_spec_for {A St} (n : nat) (I : St → Prop) (xs : list A)
    (body : A → St → io St) (s : St) :
  I s → (∀ x t, I t → io_spec false n I (body x t)) →
  io_spec false n I (io_for xs body s).
Proof.
  intros Hs Hbody. revert s Hs. induction xs as [|x xs IH]; intros s Hs.
  - by apply io_spec_ret.
  - cbn. apply (io_spec_bind false false n I I); [by apply Hbody|].
    intros t Ht. by apply IH.
Qed.

Lemma io_spec_comprehension {A B} (n : nat) (P : B → Prop) (xs : list A)
    (f : A → io B) :
  (∀ x, io_spec false n P (f x)) →
  io_spec false n (λ l, length l = length xs ∧ Forall P l) (io_comprehension xs f).
Proof.
  intros Hf. induction xs as [|x xs IH].
  - apply io_spec_ret. by split.
  - cbn. apply (io_spec_bind false false n P); [apply Hf|].
    intros b Hb.
    apply (io_spec_bind false false n (λ l, length l = length xs ∧ Forall P l));
      [apply IH|].
    intros bs [Hlen Hall]. apply io_spec_ret. split; [cbn; lia|].
    by constructor.
Qed.

Lemma get_dimension_spec (n fuel : nat) (dimension_name : string) :
  (n < fuel)%nat →
  io_spec true n (λ d, MIN_DIMENSION ≤ d ≤ MAX_DIMENSION)
    (get_dimension fuel dimension_name).
Proof.
  intros Hfuel. apply io_spec_while_true; [|done].
  apply (io_spec_bind true false n (λ _, True)); [apply io_spec_input|].
  intros value _. destruct (py_int value) as [d|].
  - destruct ((MIN_DIMENSION <=? d) && (d <=? MAX_DIMENSION)) eqn:Hd.
    + apply io_spec_ret. intros a [= <-]. lia.
    + apply (io_spec_bind false false n (λ _, True)); [apply io_spec_print|].
      intros _ _. by apply io_spec_ret.
  - apply (io_spec_bind false false n (λ _, True)); [apply io_spec_print|].
    intros _ _. by apply io_spec_ret.
Qed.

Lemma get_iterations_spec (n fuel : nat) :
  (n < fuel)%nat →
  io_spec true n (λ k, MIN_TIME_STEP ≤ k ≤ MAX_TIME_STEP) (get_iterations fuel).
Proof.
  intros Hfuel. apply io_spec_while_true; [|done].
  apply (io_spec_bind true false n (λ _, True)); [apply io_spec_input|].
  intros value _. destruct (py_int value) as [d|].
  - destruct ((MIN_TIME_STEP <=? d) && (d <=? MAX_TIME_STEP)) eqn:Hd.
    + apply io_spec_ret. intros a [= <-]. lia.
    + apply (io_spec_bind false false n (λ _, True)); [apply io_spec_print|].
      intros _ _. by apply io_spec_ret.
  - apply (io_spec_bind false false n (λ _, True)); [apply io_spec_print|].
    intros _ _. by apply io_spec_ret.
Qed.

Lemma get_seed_value_spec (n fuel : nat) :
  (n < fuel)%nat → io_spec true n (λ _, True) (get_seed_value fuel).
Proof.
  intros Hfuel. apply io_spec_while_true; [|done].
  apply (io_spec_bind true false n (λ _, True)); [apply io_spec_input|].
  intros line _. destruct (String.eqb line EmptyString).
  - apply (io_spec_bind false false n (λ _, True)); [apply io_spec_randint|].
    intros seed _.
    apply (io_spec_bind false false n (λ _, True)); [apply io_spec_print|].
    intros _ _. by apply io_spec_ret.
  - destruct (py_int line) as [seed|]; [by apply io_spec_ret|].
    apply (io_spec_bind false false n (λ _, True)); [apply io_spec_print|].
    intros _ _. by apply io_spec_ret.
Qed.

Lemma prompt_to_continue_spec (n fuel : nat) :
  (n < fuel)%nat → io_spec true n (λ _, True) (prompt_to_continue fuel).
Proof.
  intros Hfuel. apply io_spec_while_true; [|done].
  apply (io_spec_bind true false n (λ _, True)); [apply io_spec_input|].
  intros line _. cbv zeta. destruct (String.eqb (str_upper line) "Y").
  { by apply io_spec_ret. }
  destruct (String.eqb (str_upper line) "N"); [by apply io_spec_ret|].
  apply (io_spec_bind false false n (λ _, True)); [apply io_spec_print|].
  intros _ _. by apply io_spec_ret.
Qed.

Lemma generate_matrix_spec (n : nat) (rows cols seed : Z) :
  io_spec false n
    (λ m, length m = Z.to_nat rows
          ∧ Forall (λ r, length r = Z.to_nat cols
                         ∧ Forall (λ c, c = ALIVE ∨ c = DEAD) r) m)
    (generate_matrix rows cols seed).
Proof.
  unfold generate_matrix.
  apply (io_spec_bind false false n (λ _, True)); [apply io_spec_seed_random|].
  intros _ _.
  eapply io_spec_weaken.
  { apply io_spec_comprehension. intros _.
    apply (io_spec_comprehension n (λ c, c = ALIVE ∨ c = DEAD)). intros _.
    apply (io_spec_bind false false n (λ _, True)); [apply io_spec_randint|].
    intros r _. apply io_spec_ret. destruct (r =? 1); auto. }
  cbn beta. intros m [Hlen Hall]. rewrite range_length in Hlen.
  split; [done|]. eapply Forall_impl; [exact Hall|].
  cbn beta. intros r [Hr ?]. by rewrite range_length in Hr.
Qed.

Lemma display_matrix_spec (n : nat) (matrix : matrix_t) :
  io_spec false n (λ _, True) (display_matrix matrix).
Proof.
  apply io_spec_for; [done|]. intros row [] _. apply io_spec_print.
Qed.

Lemma write_final_time_step_spec (n : nat) (matrix : matrix_t) (iterations : Z) :
  io_spec false n (λ _, True) (write_final_time_step matrix iterations).
Proof.
  intros w Hw. unfold write_final_time_step.
  destruct (fs_write _ (disk w)) as [d [e|]]; cbn; by split.
Qed.

Lemma main_step_spec (n : nat) (rows cols i : Z) (matrix : matrix_t) :
  valid_grid rows cols matrix →
  io_spec false n (valid_grid rows cols) (main_step i matrix).
Proof.
  intros Hvalid. unfold main_step.
  apply (io_spec_bind false false n (valid_grid rows cols)).
  { apply (io_spec_engine n _ _ (stepped matrix)).
    - by apply (step_matrix_valid rows cols).
    - by apply stepped_valid. }
  intros m' Hm'.
  apply (io_spec_bind false false n (λ _, True)); [apply io_spec_print|].
  intros _ _.
  apply (io_spec_bind false false n (λ _, True)); [apply io_spec_print|].
  intros _ _.
  apply (io_spec_bind false false n (λ _, True)); [apply display_matrix_spec|].
  intros _ _. by apply io_spec_ret.
Qed.

Lemma main_round_spec (n fuel : nat) :
  (n < fuel)%nat → io_spec true n (λ _, True) (main_round fuel).
Proof.
  intros Hfuel. unfold main_round.
  apply (io_spec_bind false true n (λ _, True)); [apply io_spec_print|].
  intros _ _.
  apply (io_spec_bind true false n (λ d, MIN_DIMENSION ≤ d ≤ MAX_DIMENSION));
    [by apply get_dimension_spec|].
  intros rows Hrows.
  apply (io_spec_weaken true n (λ _, True)); [|done].
  apply (io_spec_bind true false n (λ d, MIN_DIMENSION ≤ d ≤ MAX_DIMENSION));
    [by apply get_dimension_spec|].
  intros cols Hcols.
  apply (io_spec_weaken true n (λ _, True)); [|done].
  apply (io_spec_bind true false n (λ _, True)); [by apply get_seed_value_spec|].
  intros seed _.
  apply (io_spec_weaken true n (λ _, True)); [|done].
  apply (io_spec_bind true false n (λ k, MIN_TIME_STEP ≤ k ≤ MAX_TIME_STEP));
    [by apply get_iterations_spec|].
  intros iterations Hiterations.
  apply (io_spec_bind false false n (valid_grid rows cols)).
  { eapply io_spec_weaken; [apply generate_matrix_spec|].
    cbn beta. intros m [Hlen Hall]. unfold MIN_DIMENSION in *.
    unfold valid_grid, rectangular, len. split_and!; [lia|lia|lia|].
    eapply Forall_impl; [exact Hall|]. cbn beta. intros r [Hr _]. lia. }
  intros matrix Hmatrix.
  apply (io_spec_bind false false n (λ _, True)); [apply io_spec_print|].
  intros _ _.
  apply (io_spec_bind false false n (λ _, True)); [apply io_spec_print|].
  intros _ _.
  apply (io_spec_bind false false n (λ _, True)); [apply display_matrix_spec|].
  intros _ _.
  apply (io_spec_bind false false n (valid_grid rows cols)).
  { apply io_spec_for; [done|]. intros i t Ht. by apply main_step_spec. }
  intros final _.
  apply (io_spec_bind false false n (λ _, True));
    [apply write_final_time_step_spec|].
  intros _ _.
  apply (io_spec_bind false false n (λ _, True)); [apply io_spec_print|].
  intros _ _.
  apply (io_spec_bind false false n (λ _, True)); [apply io_spec_print|].
  intros _ _.
  apply (io_spec_weaken true n (λ _, True)); [|done].
  apply (io_spec_bind true false n (λ _, True));
    [by apply prompt_to_continue_spec|].
  intros again _. destruct again; cbn [negb]; [by apply io_spec_ret|].
  apply (io_spec_bind false false n (λ _, True)); [apply io_spec_print|].
  intros _ _. by apply io_spec_ret.
Qed.

(** Whatever a [while True] loop returns, its body returned. *)
Lemma while_true_returns {A} (P : A → Prop) (body : io (option A)) :
  (∀ w a w', body w = (Return (Some a), w') → P a) →
  ∀ fuel w a w', while_true fuel body w = (Return a, w') → P a.
Proof.
  intros Hbody. induction fuel as [|fuel IH]; intros w a w' Hrun; [done|].
  cbn in Hrun. unfold io_bind in Hrun.
  destruct (body w) as [[[b|]| |] w1] eqn:Hb; [| |done..].
  - cbn in Hrun. inversion Hrun; subst. by eapply Hbody.
  - by eapply IH.
Qed.

Lemma input_nil (prompt : string) (w : world) :
  stdin w = [] →
  input prompt w = (Throw EOFError, World [] (stdout w ++ [prompt]) (gen w) (disk w)).
Proof. intros Hin. unfold input. by rewrite Hin. Qed.

Lemma input_cons (prompt line : string) (rest : list string) (w : world) :
  stdin w = line :: rest →
  input prompt w
  = (Return line, World rest (stdout w ++ [prompt]) (gen w) (disk w)).
Proof. intros Hin. unfold input. by rewrite Hin. Qed.

Lemma io_bind_Return {A B} (m : io A) (k : A → io B) (w w' : world) (a : A) :
  m w = (Return a, w') → io_bind m k w = k a w'.
Proof. intros Hm. unfold io_bind. by rewrite Hm. Qed.

Lemma io_bind_Throw {A B} (m : io A) (k : A → io B) (w w' : world) (e : io_exn) :
  m w = (Throw e, w') → io_bind m k w = (Throw e, w').
Proof. intros Hm. unfold io_bind. by rewrite Hm. Qed.

Lemma while_true_S {A} (fuel : nat) (body : io (option A)) (w : world) :
  while_true (S fuel) body w
  = io_bind body (λ r, match r with
                       | Some a => io_ret a
                       | None => while_true fuel body
                       end) w.
Proof. reflexivity. Qed.

(** A loop that prompts, reads a line and goes round again, after one
    message, on every line it rejects: it skips the rejected lines and ends
    at the first other line, or with [EOFError] when there is none. *)
Section prompt_loop.
Context {A : Type} (prompt : string) (handle : string → io (option A))
  (rejects : string → Prop).
Context (Hrejects : ∀ line w, rejects line →
  ∃ err, handle line w
         = (Return None, World (stdin w) (stdout w ++ [err]) (gen w) (disk w))).

Lemma prompt_loop_eof (rejected : list string) (fuel : nat) (w : world) :
  Forall rejects rejected → (length rejected < fuel)%nat →
  stdin w = rejected →
  ∃ out, length out = (2 * length rejected + 1)%nat
    ∧ while_true fuel (io_bind (input prompt) handle) w
      = (Throw EOFError, World [] (stdout w ++ out) (gen w) (disk w)).
Proof.
  revert fuel w. induction rejected as [|l ls IH]; intros fuel w Hall Hfuel Hin;
    (destruct fuel as [|fuel]; [cbn in Hfuel; lia|]).
  - exists [prompt]. split; [done|]. rewrite while_true_S.
    erewrite io_bind_Throw; [done|].
    erewrite io_bind_Throw; [done|]. by apply input_nil.
  - apply Forall_cons in Hall as [Hl Hls].
    pose (w1 := World ls (stdout w ++ [prompt]) (gen w) (disk w)).
    destruct (Hrejects l w1 Hl) as (err & Herr).
    destruct (IH fuel (World ls (stdout w1 ++ [err]) (gen w) (disk w)))
      as (out & Hlen & Hrun); [done|cbn in *; lia|done|].
    exists (prompt :: err :: out). split; [cbn; lia|].
    rewrite while_true_S.
    erewrite io_bind_Return;
      [|erewrite io_bind_Return; [exact Herr|by apply input_cons]].
    cbn [stdin stdout gen disk w1] in *. rewrite Hrun. do 2 f_equal.
    by rewrite <- !app_assoc.
Qed.

Lemma prompt_loop_first (rejected : list string) (line : string)
    (rest : list string) (fuel : nat) (w : world) :
  Forall rejects rejected → (length rejected < fuel)%nat →
  stdin w = rejected ++ line :: rest →
  ∃ out, length out = (2 * length rejected + 1)%nat
    ∧ ∀ a w', handle line (World rest (stdout w ++ out) (gen w) (disk w))
              = (Return (Some a), w') →
        while_true fuel (io_bind (input prompt) handle) w = (Return a, w').
Proof.
  revert fuel w. induction rejected as [|l ls IH]; intros fuel w Hall Hfuel Hin;
    (destruct fuel as [|fuel]; [cbn in Hfuel; lia|]).
  - exists [prompt]. split; [done|]. intros a w' Hline.
    rewrite while_true_S.
    erewrite io_bind_Return;
      [|erewrite io_bind_Return; [exact Hline|by apply input_cons]].
    done.
  - apply Forall_cons in Hall as [Hl Hls].
    pose (w1 := World (ls ++ line :: rest) (stdout w ++ [prompt]) (gen w) (disk w)).
    destruct (Hrejects l w1 Hl) as (err & Herr).
    destruct (IH fuel (World (ls ++ line :: rest) (stdout w1 ++ [err]) (gen w) (disk w)))
      as (out & Hlen & Hrun); [done|cbn in *; lia|done|].
    exists (prompt :: err :: out). split; [cbn; lia|]. intros a w' Hline.
    rewrite while_true_S.
    erewrite io_bind_Return;
      [|erewrite io_bind_Return; [exact Herr|by apply input_cons]].
    cbn [stdin stdout gen disk w1] in *.
    apply Hrun. rewrite <- Hline. do 2 f_equal.
    by rewrite <- !app_assoc.
Qed.

End prompt_loop.

Lemma bounded_int_Some (lo hi : Z) (line : string) (v : Z) :
  bounded_int lo hi line = Some v ↔ py_int line = Some v ∧ lo ≤ v ≤ hi.
Proof.
  unfold bounded_int. destruct (py_int line) as [u|]; [|by split; [|intros [? _]]].
  destruct (Z.leb_spec lo u), (Z.leb_spec u hi); cbn; split;
    try (intros [= ->]; split; [done|lia]);
    try (intros [[= ->] ?]; done || lia); done.
Qed.

Lemma bounded_int_None (lo hi : Z) (line : string) :
  bounded_int lo hi line = None ↔ ∀ v, py_int line = Some v → v < lo ∨ hi < v.
Proof.
  unfold bounded_int. destruct (py_int line) as [u|]; [|by split].
  destruct (Z.leb_spec lo u), (Z.leb_spec u hi); cbn; split; try done;
    try (intros Hv; specialize (Hv u eq_refl); lia);
    intros _ v [= <-]; lia.
Qed.

(** The line handling shared, up to its messages and bounds, by
    [get_dimension] and [get_iterations]. *)
Lemma bounded_handle_rejects (lo hi : Z) (e1 e2 line : string) (w : world) :
  bounded_int lo hi line = None →
  ∃ err,
    match py_int line with
    | Some v =>
        if (lo <=? v) && (v <=? hi) then io_ret (Some v)
        else io_bind (print e1) (λ _, io_ret None)
    | None => io_bind (print e2) (λ _, io_ret None)
    end w
    = (Return None, World (stdin w) (stdout w ++ [err]) (gen w) (disk w)).
Proof.
  unfold bounded_int. destruct (py_int line) as [v|]; [|by eexists].
  destruct ((lo <=? v) && (v <=? hi)); [done|by eexists].
Qed.

Lemma bounded_handle_accepts (lo hi : Z) (e1 e2 line : string) (v : Z) (w : world) :
  bounded_int lo hi line = Some v →
  match py_int line with
  | Some v =>
      if (lo <=? v) && (v <=? hi) then io_ret (Some v)
      else io_bind (print e1) (λ _, io_ret None)
  | None => io_bind (print e2) (λ _, io_ret None)
  end w
  = (Return (Some v), w).
Proof.
  unfold bounded_int. destruct (py_int line) as [u|]; [|done].
  destruct ((lo <=? u) && (u <=? hi)); [|done]. by intros [= ->].
Qed.

Lemma bounded_handle_returns (lo hi : Z) (e1 e2 line : string) (v : Z) (w w' : world) :
  match py_int line with
  | Some v =>
      if (lo <=? v) && (v <=? hi) then io_ret (Some v)
      else io_bind (print e1) (λ _, io_ret None)
  | None => io_bind (print e2) (λ _, io_ret None)
  end w
  = (Return (Some v), w') →
  py_int line = Some v ∧ lo ≤ v ≤ hi.
Proof.
  destruct (py_int line) as [u|]; [|done].
  destruct (Z.leb_spec lo u), (Z.leb_spec u hi); cbn; try done.
  intros [= -> _]. split; [done|lia].
Qed.

(** X10.  Whatever [get_dimension] returns is an integer between 3 and 20
    that [int] read from a line of input, for either dimension name and
    whatever came before on the input. *)
Theorem get_dimension_range (fuel : nat) (dimension_name : string)
    (w w' : world) (d : Z) :
  get_dimension fuel dimension_name w = (Return d, w') →
  3 ≤ d ≤ 20 ∧ ∃ line, py_int line = Some d.
Proof.
  unfold get_dimension.
  apply (while_true_returns (λ d, 3 ≤ d ≤ 20 ∧ ∃ line, py_int line = Some d)).
  clear. intros w d w' Hbody. unfold io_bind at 1 in Hbody.
  destruct (input _ w) as [[line| |] w1]; [|done..].
  apply bounded_handle_returns in Hbody as [? ?]. split; [done|by exists line].
Qed.

(** X11.  [get_dimension] skips every line that [int] does not read or
    reads as an integer outside 3..20, writing a prompt before each line and
    one message after it, and returns the value of the first other line,
    leaving the lines after it unread and the generator and the file system
    as they were.  When every line left is of the skipped kind it raises
    [EOFError] after the last one. *)
Theorem get_dimension_first_valid (fuel : nat) (dimension_name : string)
    (rejected : list string) (w : world) :
  Forall (λ l, ∀ v, py_int l = Some v → v < 3 ∨ 20 < v) rejected →
  (length rejected < fuel)%nat →
  (stdin w = rejected →
     ∃ out, length out = (2 * length rejected + 1)%nat
       ∧ get_dimension fuel dimension_name w
         = (Throw EOFError, World [] (stdout w ++ out) (gen w) (disk w)))
  ∧ (∀ line rest d,
       stdin w = rejected ++ line :: rest → py_int line = Some d → 3 ≤ d ≤ 20 →
       ∃ out, length out = (2 * length rejected + 1)%nat
         ∧ get_dimension fuel dimension_name w
           = (Return d, World rest (stdout w ++ out) (gen w) (disk w))).
Proof.
  intros Hall Hfuel.
  assert (Forall (λ l, bounded_int MIN_DIMENSION MAX_DIMENSION l = None) rejected)
    as Hrej.
  { eapply Forall_impl; [exact Hall|]. intros l Hl. by apply bounded_int_None. }
  split.
  - intros Hin. unfold get_dimension.
    eapply prompt_loop_eof; [|exact Hrej|done|done].
    intros line w0. apply bounded_handle_rejects.
  - intros line rest d Hin Hline Hd. unfold get_dimension.
    match goal with
    | |- ∃ _, _ ∧ while_true _ (io_bind (input ?p) ?h) _ = _ =>
        destruct (prompt_loop_first p h _
                    (λ l w0, bounded_handle_rejects _ _ _ _ l w0)
                    rejected line rest fuel w Hrej Hfuel Hin)
          as (out & Hlen & Hrun)
    end.
    exists out. split; [done|]. apply Hrun.
    apply bounded_handle_accepts. by apply bounded_int_Some.
Qed.

(** X12.  Whatever [get_iterations] returns is an integer between 1 and 99
    that [int] read from a line of input. *)
Theorem get_iterations_range (fuel : nat) (w w' : world) (k : Z) :
  get_iterations fuel w = (Return k, w') →
  1 ≤ k ≤ 99 ∧ ∃ line, py_int line = Some k.
Proof.
  unfold get_iterations.
  apply (while_true_returns (λ k, 1 ≤ k ≤ 99 ∧ ∃ line, py_int line = Some k)).
  clear. intros w k w' Hbody. unfold io_bind at 1 in Hbody.
  destruct (input _ w) as [[line| |] w1]; [|done..].
  apply bounded_handle_returns in Hbody as [? ?]. split; [done|by exists line].
Qed.

(** X13.  [get_iterations] skips every line that [int] does not read or
    reads as an integer outside 1..99, with a prompt before each line and
    one message after it, and returns the value of the first other line;
    when there is none it raises [EOFError]. *)
Theorem get_iterations_first_valid (fuel : nat) (rejected : list string) (w : world) :
  Forall (λ l, ∀ v, py_int l = Some v → v < 1 ∨ 99 < v) rejected →
  (length rejected < fuel)%nat →
  (stdin w = rejected →
     ∃ out, length out = (2 * length rejected + 1)%nat
       ∧ get_iterations fuel w
         = (Throw EOFError, World [] (stdout w ++ out) (gen w) (disk w)))
  ∧ (∀ line rest k,
       stdin w = rejected ++ line :: rest → py_int line = Some k → 1 ≤ k ≤ 99 →
       ∃ out, length out = (2 * length rejected + 1)%nat
         ∧ get_iterations fuel w
           = (Return k, World rest (stdout w ++ out) (gen w) (disk w))).
Proof.
  intros Hall Hfuel.
  assert (Forall (λ l, bounded_int MIN_TIME_STEP MAX_TIME_STEP l = None) rejected)
    as Hrej.
  { eapply Forall_impl; [exact Hall|]. intros l Hl. by apply bounded_int_None. }
  split.
  - intros Hin. unfold get_iterations.
    eapply prompt_loop_eof; [|exact Hrej|done|done].
    intros line w0. apply bounded_handle_rejects.
  - intros line rest k Hin Hline Hk. unfold get_iterations.
    match goal with
    | |- ∃ _, _ ∧ while_true _ (io_bind (input ?p) ?h) _ = _ =>
        destruct (prompt_loop_first p h _
                    (λ l w0, bounded_handle_rejects _ _ _ _ l w0)
                    rejected line rest fuel w Hrej Hfuel Hin)
          as (out & Hlen & Hrun)
    end.
    exists out. split; [done|]. apply Hrun.
    apply bounded_handle_accepts. by apply bounded_int_Some.
Qed.

(** X14.  [prompt_to_continue] skips, with a prompt before and a message
    after, every line whose upper-case form is neither [Y] nor [N]; the
    first other line decides: [True] for [Y], [False] for [N].  When no
    such line is left it raises [EOFError]. *)
Theorem prompt_to_continue_first_answer (fuel : nat) (rejected : list string)
    (w : world) :
  Forall (λ l, str_upper l ≠ "Y" ∧ str_upper l ≠ "N") rejected →
  (length rejected < fuel)%nat →
  (stdin w = rejected →
     ∃ out, length out = (2 * length rejected + 1)%nat
       ∧ prompt_to_continue fuel w
         = (Throw EOFError, World [] (stdout w ++ out) (gen w) (disk w)))
  ∧ (∀ line rest answer,
       stdin w = rejected ++ line :: rest →
       str_upper line = (if answer : bool then "Y" else "N") →
       ∃ out, length out = (2 * length rejected + 1)%nat
         ∧ prompt_to_continue fuel w
           = (Return answer, World rest (stdout w ++ out) (gen w) (disk w))).
Proof.
  intros Hrej Hfuel.
  assert (∀ line w0, str_upper line ≠ "Y" ∧ str_upper line ≠ "N" →
    ∃ err, (λ line, let again := str_upper line in
              if String.eqb again "Y" then io_ret (Some true)
              else if String.eqb again "N" then io_ret (Some false)
              else io_bind (print "Not a valid answer. Please enter Y or N.")
                     (λ _, io_ret None)) line w0
           = (Return None, World (stdin w0) (stdout w0 ++ [err]) (gen w0) (disk w0)))
    as Hhandle.
  { intros line w0 [Hy Hn]. cbv beta zeta.
    apply String.eqb_neq in Hy, Hn. rewrite Hy, Hn. by eexists. }
  split.
  - intros Hin. unfold prompt_to_continue.
    by eapply (prompt_loop_eof _ _ _ Hhandle).
  - intros line rest answer Hin Hline. unfold prompt_to_continue.
    match goal with
    | |- ∃ _, _ ∧ while_true _ (io_bind (input ?p) _) _ = _ =>
        destruct (prompt_loop_first p _ _ Hhandle rejected line rest fuel w
                    Hrej Hfuel Hin) as (out & Hlen & Hrun)
    end.
    exists out. split; [done|]. apply Hrun. cbv beta zeta. rewrite Hline.
    by destruct answer.
Qed.

(** X15.  [get_seed_value] takes any integer [int] reads, of either sign,
    as the seed and leaves the generator alone; on an empty line it draws
    the seed from the generator with [randint(1, 100000000)] and reports it.
    Lines that are neither are skipped with a prompt before and a message
    after, and [EOFError] is raised when only such lines are left. *)
Theorem get_seed_value_first_valid (fuel : nat) (rejected : list string)
    (w : world) :
  Forall (λ l, l ≠ EmptyString ∧ py_int l = None) rejected →
  (length rejected < fuel)%nat →
  (stdin w = rejected →
     ∃ out, length out = (2 * length rejected + 1)%nat
       ∧ get_seed_value fuel w
         = (Throw EOFError, World [] (stdout w ++ out) (gen w) (disk w)))
  ∧ (∀ line rest seed,
       stdin w = rejected ++ line :: rest →
       line ≠ EmptyString → py_int line = Some seed →
       ∃ out, length out = (2 * length rejected + 1)%nat
         ∧ get_seed_value fuel w
           = (Return seed, World rest (stdout w ++ out) (gen w) (disk w)))
  ∧ (∀ rest,
       stdin w = rejected ++ EmptyString :: rest →
       ∃ out, length out = (2 * length rejected + 2)%nat
         ∧ get_seed_value fuel w
           = (Return (random_randint 1 100000000 (gen w)).1,
              World rest (stdout w ++ out)
                (random_randint 1 100000000 (gen w)).2 (disk w))).
Proof.
  intros Hrej Hfuel.
  assert (∀ line w0, line ≠ EmptyString ∧ py_int line = None →
    ∃ err, (λ seed_input,
              if String.eqb seed_input EmptyString then
                io_bind (randint 1 100000000) (λ seed,
                io_bind (print ("Using random seed: " +:+ py_str seed)) (λ _,
                io_ret (Some seed)))
              else
                match py_int seed_input with
                | Some seed => io_ret (Some seed)
                | None =>
                    io_bind
                      (print "Error: Please enter a valid integer or press Enter for a random seed.")
                      (λ _, io_ret None)
                end) line w0
           = (Return None, World (stdin w0) (stdout w0 ++ [err]) (gen w0) (disk w0)))
    as Hhandle.
  { intros line w0 [Hne Hint]. cbv beta.
    apply String.eqb_neq in Hne. rewrite Hne, Hint. by eexists. }
  split_and!.
  - intros Hin. unfold get_seed_value.
    by eapply (prompt_loop_eof _ _ _ Hhandle).
  - intros line rest seed Hin Hne Hint. unfold get_seed_value.
    match goal with
    | |- ∃ _, _ ∧ while_true _ (io_bind (input ?p) _) _ = _ =>
        destruct (prompt_loop_first p _ _ Hhandle rejected line rest fuel w
                    Hrej Hfuel Hin) as (out & Hlen & Hrun)
    end.
    exists out. split; [done|]. apply Hrun. cbv beta.
    apply String.eqb_neq in Hne. by rewrite Hne, Hint.
  - intros rest Hin. unfold get_seed_value.
    match goal with
    | |- ∃ _, _ ∧ while_true _ (io_bind (input ?p) _) _ = _ =>
        destruct (prompt_loop_first p _ _ Hhandle rejected EmptyString rest fuel w
                    Hrej Hfuel Hin) as (out & Hlen & Hrun)
    end.
    exists (out ++ [("Using random seed: "
                      +:+ py_str (random_randint 1 100000000 (gen w)).1) +:+ nl]).
    split; [rewrite length_app; cbn; lia|].
    apply Hrun. cbv beta. unfold io_bind, randint, print. cbn.
    destruct (random_randint 1 100000000 (gen w)) as [seed g]. cbn.
    unfold io_ret. rewrite <- app_assoc. reflexivity.
Qed.

(** A comprehension over draws from the generator returns a list as long as
    its range, touches nothing but the generator, and depends on nothing
    else. *)
Lemma io_comprehension_gen {A B} (P : B → Prop) (xs : list A) (f : A → io B) :
  (∀ x, ∃ h : rng → B * rng, ∀ w,
     f x w = (Return (h (gen w)).1, World (stdin w) (stdout w) (h (gen w)).2 (disk w))
     ∧ P (h (gen w)).1) →
  ∃ h : rng → list B * rng, ∀ w,
    io_comprehension xs f w
    = (Return (h (gen w)).1, World (stdin w) (stdout w) (h (gen w)).2 (disk w))
    ∧ length (h (gen w)).1 = length xs ∧ Forall P (h (gen w)).1.
Proof.
  intros Hf. induction xs as [|x xs IH].
  - exists (λ g, ([], g)). intros w. cbn. unfold io_ret. by destruct w.
  - destruct (Hf x) as (hx & Hx). destruct IH as (hxs & Hxs).
    exists (λ g, ((hx g).1 :: (hxs (hx g).2).1, (hxs (hx g).2).2)).
    intros w. cbn [io_comprehension]. destruct (Hx w) as [Hrun HP].
    rewrite (io_bind_Return _ _ _ _ _ Hrun).
    destruct (Hxs (World (stdin w) (stdout w) (hx (gen w)).2 (disk w)))
      as (Hrun' & Hlen & Hall).
    rewrite (io_bind_Return _ _ _ _ _ Hrun'). cbn in *.
    split_and!; [done|lia|by constructor].
Qed.

(** X16.  [generate_matrix] raises nothing and reads and writes nothing: it
    returns [rows] rows of [cols] cells, each ['O'] or ['.'] (no row for a
    row count below 1, empty rows for a column count below 1), so for
    positive counts a grid the engine is specified on; and since it seeds
    the generator first, the grid is the same whatever was drawn before. *)
Theorem generate_matrix_grid (rows cols seed : Z) (w : world) :
  ∃ m g,
    generate_matrix rows cols seed w
    = (Return m, World (stdin w) (stdout w) g (disk w))
    ∧ length m = Z.to_nat rows
    ∧ Forall (λ r, length r = Z.to_nat cols) m
    ∧ two_valued m
    ∧ (1 ≤ rows → 1 ≤ cols → valid_grid rows cols m)
    ∧ (∀ w2, (generate_matrix rows cols seed w2).1 = Return m).
Proof.
  destruct (io_comprehension_gen
              (λ r, length r = Z.to_nat cols ∧ Forall (λ c, c = ALIVE ∨ c = DEAD) r)
              (range 0 rows)
              (λ _ : Z, io_comprehension (range 0 cols) (λ _ : Z,
                 io_bind (randint 0 1) (λ r,
                 io_ret (if r =? 1 then ALIVE else DEAD)))))
    as (h & Hh).
  { intros _.
    destruct (io_comprehension_gen (λ c, c = ALIVE ∨ c = DEAD) (range 0 cols)
                (λ _ : Z, io_bind (randint 0 1) (λ r,
                   io_ret (if r =? 1 then ALIVE else DEAD))))
      as (hr & Hhr).
    { intros _.
      exists (λ g, (if (random_randint 0 1 g).1 =? 1 then ALIVE else DEAD,
                    (random_randint 0 1 g).2)).
      intros w0. unfold io_bind, randint, io_ret.
      destruct (random_randint 0 1 (gen w0)) as [r g]. cbn.
      split; [done|]. destruct (r =? 1); auto. }
    exists hr. intros w0. destruct (Hhr w0) as (Hrun & Hlen & Hall).
    rewrite range_length in Hlen. done. }
  pose (g0 := random_seed seed).
  assert (∀ w0, generate_matrix rows cols seed w0
                = (Return (h g0).1, World (stdin w0) (stdout w0) (h g0).2 (disk w0)))
    as Hgen.
  { intros w0. unfold generate_matrix.
    erewrite io_bind_Return; [|reflexivity].
    destruct (Hh (World (stdin w0) (stdout w0) g0 (disk w0))) as (Hrun & _).
    exact Hrun. }
  destruct (Hh (World (stdin w) (stdout w) g0 (disk w))) as (_ & Hlen & Hall).
  cbn in Hlen, Hall. rewrite range_length in Hlen.
  exists (h g0).1, (h g0).2. split_and!.
  - apply Hgen.
  - done.
  - eapply Forall_impl; [exact Hall|]. by intros r [? _].
  - eapply Forall_impl; [exact Hall|]. by intros r [_ ?].
  - intros Hrows Hcols. unfold valid_grid, rectangular, len.
    split_and!; [done|done|lia|].
    eapply Forall_impl; [exact Hall|]. cbn beta. intros r [Hr _]. lia.
  - intros w2. by rewrite Hgen.
Qed.

Lemma display_matrix_output (matrix : matrix_t) (w : world) :
  display_matrix matrix w
  = (Return tt,
     World (stdin w) (stdout w ++ ((λ row, join row +:+ nl) <$> matrix))
       (gen w) (disk w)).
Proof.
  unfold display_matrix. revert w.
  induction matrix as [|row matrix IH]; intros w.
  - cbn. unfold io_ret. rewrite app_nil_r. by destruct w.
  - cbn [io_for]. unfold io_bind, print at 1. rewrite IH. cbn.
    by rewrite <- app_assoc.
Qed.

Lemma join_cons_cell (c : string) (r : list string) :
  c = ALIVE ∨ c = DEAD →
  ∃ a, c = String a EmptyString ∧ a ≠ Ascii.ascii_of_nat 10
       ∧ join (c :: r) = String a (join r).
Proof.
  intros [->| ->]; eexists; (split_and!; [reflexivity|done|]);
    by destruct r.
Qed.

Lemma join_line_inj (r1 r2 : list string) :
  Forall (λ c, c = ALIVE ∨ c = DEAD) r1 →
  Forall (λ c, c = ALIVE ∨ c = DEAD) r2 →
  join r1 +:+ nl = join r2 +:+ nl → r1 = r2.
Proof.
  intros H1. revert r2. induction H1 as [|c1 r1 Hc1 _ IH]; intros r2 H2 Heq.
  - destruct H2 as [|c2 r2 Hc2 _]; [done|].
    destruct (join_cons_cell c2 r2 Hc2) as (a & _ & Ha & Hjoin).
    rewrite Hjoin in Heq. cbn in Heq. inversion Heq. congruence.
  - destruct (join_cons_cell c1 r1 Hc1) as (a1 & -> & Ha1 & Hjoin1).
    rewrite Hjoin1 in Heq.
    destruct H2 as [|c2 r2 Hc2 H2].
    + cbn in Heq. inversion Heq. congruence.
    + destruct (join_cons_cell c2 r2 Hc2) as (a2 & -> & Ha2 & Hjoin2).
      rewrite Hjoin2 in Heq. cbn in Heq. inversion Heq; subst.
      f_equal. by apply IH.
Qed.

(** X17.  [display_matrix] writes one line per row, the cells of the row
    side by side, after what was written before, and changes nothing else.
    On grids of ['O'] and ['.'] the text shows the grid: two grids displayed
    alike are the same grid. *)
Theorem display_matrix_faithful (m1 m2 : matrix_t) (w : world) :
  two_valued m1 → two_valued m2 →
  display_matrix m1 w
  = (Return tt,
     World (stdin w) (stdout w ++ ((λ row, join row +:+ nl) <$> m1))
       (gen w) (disk w))
  ∧ length (stdout (display_matrix m1 w).2)
    = (length (stdout w) + length m1)%nat
  ∧ (display_matrix m1 w = display_matrix m2 w → m1 = m2).
Proof.
  intros H1 H2. split_and!.
  - apply display_matrix_output.
  - rewrite display_matrix_output. cbn. by rewrite length_app, length_fmap.
  - rewrite !display_matrix_output. intros [= Heq].
    apply app_inv_head in Heq. clear w.
    revert m2 H2 Heq. induction H1 as [|r1 m1 Hr1 _ IH]; intros m2 H2 Heq.
    + by destruct m2.
    + destruct H2 as [|r2 m2 Hr2 H2]; [done|].
      cbn in Heq. inversion Heq as [[Hrow Hrest]].
      f_equal; [by apply join_line_inj|by apply IH].
Qed.

(** X18.  [write_final_time_step] raises nothing: it returns [True] when
    the file system took the report and otherwise [False] after one message
    on the console, and it reads no input and draws nothing.  The report is
    eight writes of heading followed by the very lines [display_matrix]
    prints for the grid, and words the count as [time step] for one
    iteration and [time steps] for any other number. *)
Theorem write_final_time_step_report (matrix : matrix_t) (iterations : Z)
    (w : world) :
  (∃ b out d,
     write_final_time_step matrix iterations w
     = (Return b, World (stdin w) (stdout w ++ out) (gen w) d)
     ∧ fs_write (final_time_step_writes matrix iterations) (disk w)
       = (d, if b then None
             else (fs_write (final_time_step_writes matrix iterations) (disk w)).2)
     ∧ length out = (if b then 0 else 1)%nat
     ∧ (b = false ↔
        is_Some (fs_write (final_time_step_writes matrix iterations) (disk w)).2))
  ∧ final_time_step_writes matrix iterations
    = take 8 (final_time_step_writes matrix iterations)
      ++ drop (length (stdout w)) (stdout (display_matrix matrix w).2)
  ∧ final_time_step_writes matrix iterations !! 4%nat
    = Some ("You ran " +:+ py_str iterations +:+ " "
            +:+ (if decide (iterations = 1) then "time step" else "time steps")
            +:+ ".").
Proof.
  split_and!.
  - unfold write_final_time_step.
    destruct (fs_write _ (disk w)) as [d [e|]] eqn:Hwrite.
    + exists false, [("Error writing to file: " +:+ e) +:+ nl], d.
      cbn. split_and!; [done|done|done|]. split; [by eexists|done].
    + exists true, [], d. cbn. rewrite app_nil_r.
      split_and!; [done|done|done|]. split; [done|by intros [? ?]].
  - rewrite display_matrix_output. cbn [snd stdout].
    rewrite drop_app_length. reflexivity.
  - unfold final_time_step_writes. cbn [lookup list_lookup app].
    case_decide as Hone.
    + subst. reflexivity.
    + by assert ((iterations =? 1) = false) as -> by lia.
Qed.

Lemma io_spec_post {A} (s : bool) (n : nat) (P Q : A → Prop) (m : io A) :
  io_spec s n P m → (∀ a, P a → Q a) → io_spec s n Q m.
Proof.
  intros Hm HPQ w Hw. specialize (Hm w Hw).
  destruct (m w) as [[a| |] w']; [|done..].
  destruct Hm as [Ha Hlen]. split; [by apply HPQ|done].
Qed.

(** X19.  Run on input that ends, [main] stops in one of two ways: it
    returns, after the user's N, or it raises [EOFError] where the input
    ran out.  No [IndexError] and no [ZeroDivisionError] of the engine
    escapes, whatever the lines of input, the generator and the file system
    are: the dimensions it accepts make every generated grid one the engine
    is specified on.  The loops end before the fuel does. *)
Theorem main_safe (fuel : nat) (w : world) :
  (length (stdin w) < fuel)%nat →
  (main fuel w).1 = Return tt ∨ (main fuel w).1 = Throw EOFError.
Proof.
  intros Hfuel.
  assert (io_spec false (length (stdin w)) (λ _, True) (main fuel)) as Hmain.
  { unfold main.
    apply (io_spec_bind false false _ (λ _, True)); [apply io_spec_print|].
    intros _ _.
    apply (io_spec_bind false false _ (λ _, True)); [apply io_spec_print|].
    intros _ _.
    apply (io_spec_bind false false _ (λ _, True)); [apply io_spec_print|].
    intros _ _.
    apply (io_spec_bind false false _ (λ _, True)); [apply io_spec_print|].
    intros _ _.
    apply (io_spec_weaken true _ (λ _, True)); [|done].
    apply io_spec_while_true; [|done].
    apply (io_spec_post true _ (λ _, True)); [by apply main_round_spec|done]. }
  specialize (Hmain w (le_n _)).
  destruct (main fuel w) as [[[]| |] w']; cbn; [by left| |done].
  right. by rewrite Hmain.
Qed.

End program_facts.

(** ** Runs on the toy instance *)

Ltac rejected_by_computation :=
  repeat (apply Forall_cons; split); try apply Forall_nil;
  try (intros v Hv; vm_compute in Hv; inversion Hv; lia);
  try (split; first [reflexivity | intros Heq; vm_compute in Heq; discriminate]).

Lemma get_dimension_range_witness :
  3 ≤ 3 ≤ 20 ∧ ∃ line, py_int (Builtins := toy_builtins) line = Some 3.
Proof.
  eapply (get_dimension_range (H := toy_builtins) 5 "rows"
            (toy_world ["x"; "3"]) _ 3).
  reflexivity.
Defined.

Lemma get_dimension_first_valid_witness :
  ∃ out, length out = (2 * 2 + 1)%nat
    ∧ get_dimension (H := toy_builtins) 5 "rows" (toy_world ["x"; "1"; "3"; "4"])
      = (Return 3, World (H := toy_builtins) ["4"] ([] ++ out) (0 : Z) []).
Proof.
  refine (proj2 (get_dimension_first_valid (H := toy_builtins) 5 "rows"
                   ["x"; "1"] (toy_world ["x"; "1"; "3"; "4"]) _ _)
            "3" ["4"] 3 _ _ _);
    [rejected_by_computation | cbn; lia | reflexivity | reflexivity | lia].
Defined.

Lemma get_iterations_range_witness :
  1 ≤ 2 ≤ 99 ∧ ∃ line, py_int (Builtins := toy_builtins) line = Some 2.
Proof.
  eapply (get_iterations_range (H := toy_builtins) 5 (toy_world ["0"; "2"]) _ 2).
  reflexivity.
Defined.

Lemma get_iterations_first_valid_witness :
  ∃ out, length out = (2 * 2 + 1)%nat
    ∧ get_iterations (H := toy_builtins) 5 (toy_world ["0"; "x"; "2"; "4"])
      = (Return 2, World (H := toy_builtins) ["4"] ([] ++ out) (0 : Z) []).
Proof.
  refine (proj2 (get_iterations_first_valid (H := toy_builtins) 5
                   ["0"; "x"] (toy_world ["0"; "x"; "2"; "4"]) _ _)
            "2" ["4"] 2 _ _ _);
    [rejected_by_computation | cbn; lia | reflexivity | reflexivity | lia].
Defined.

Lemma prompt_to_continue_first_answer_witness :
  ∃ out, length out = (2 * 1 + 1)%nat
    ∧ prompt_to_continue (H := toy_builtins) 5 (toy_world ["maybe"; "n"; "y"])
      = (Return false, World (H := toy_builtins) ["y"] ([] ++ out) (0 : Z) []).
Proof.
  refine (proj2 (prompt_to_continue_first_answer (H := toy_builtins) 5
                   ["maybe"] (toy_world ["maybe"; "n"; "y"]) _ _)
            "n" ["y"] false _ _);
    [rejected_by_computation | cbn; lia | reflexivity | reflexivity].
Defined.

Lemma get_seed_value_first_valid_witness :
  ∃ out, length out = (2 * 1 + 1)%nat
    ∧ get_seed_value (H := toy_builtins) 5 (toy_world ["seed"; "5"; "y"])
      = (Return 5, World (H := toy_builtins) ["y"] ([] ++ out) (0 : Z) []).
Proof.
  refine (proj1 (proj2 (get_seed_value_first_valid (H := toy_builtins) 5
                          ["seed"] (toy_world ["seed"; "5"; "y"]) _ _))
            "5" ["y"] 5 _ _ _);
    [rejected_by_computation | cbn; lia | reflexivity | done | reflexivity].
Defined.

Lemma display_matrix_faithful_witness :
  display_matrix (H := toy_builtins) grid3_top (toy_world [])
  = (Return tt,
     World (H := toy_builtins) []
       ([] ++ ((λ row, join row +:+ nl) <$> grid3_top)) (0 : Z) [])
  ∧ length (stdout (display_matrix (H := toy_builtins) grid3_top (toy_world [])).2)
    = (0 + length grid3_top)%nat
  ∧ (display_matrix (H := toy_builtins) grid3_top (toy_world [])
     = display_matrix (H := toy_builtins) grid3_corner (toy_world [])
     → grid3_top = grid3_corner).
Proof.
  apply (display_matrix_faithful (H := toy_builtins) grid3_top grid3_corner
           (toy_world []));
    unfold two_valued; repeat (apply Forall_cons; split);
    try apply Forall_nil; vm_compute; auto.
Defined.

Lemma main_safe_witness :
  (main (H := toy_builtins) 10 (toy_world ["3"; "3"; EmptyString; "2"; "n"])).1 = Return tt
  ∨ (main (H := toy_builtins) 10 (toy_world ["3"; "3"; EmptyString; "2"; "n"])).1
    = Throw EOFError.
Proof.
  apply (main_safe (H := toy_builtins) 10 (toy_world ["3"; "3"; EmptyString; "2"; "n"])).
  cbn. lia.
Defined.
